(** * ossa: SSA graph model and control-flow analyses

    A shallow embedding of the Go packages [ossa] (values, terminators,
    basic blocks, block sets) and [ossa/oana] (worklists, forward data
    flow, predecessors, dominators, natural loops), followed by the
    properties established about them.

    Conventions of the embedding:
    - a Go pointer is an address of type [N]; the nil pointer is address 0
      and is never allocated, so dereferencing it panics;
    - the blocks of a graph live in a heap [gmap N BasicBlock]; sets and
      tables keyed by [*BasicBlock] are [gset N] and [gmap N _];
    - a Go function that can panic returns a [result]; a Go loop is a
      recursion on a fuel argument and yields [OutOfFuel] when the fuel is
      used up before the loop condition fails;
    - [range] over a Go map enumerates the keys in an unspecified order,
      which may differ from one loop to the next: such loops take the order
      from an oracle [ord : nat -> gset N -> list N], indexed by a counter
      of the range loops executed so far, and the properties are stated for
      every oracle that returns a permutation of the keys. *)

From Stdlib Require Import ZArith.
From stdpp Require Import base option list sets gmap relations.

Open Scope Z_scope.

(** ** Results of Go calls *)

Inductive result (A : Type) : Type :=
  | Ok (a : A)
  | Panic
  | OutOfFuel.
Arguments Ok {A} a.
Arguments Panic {A}.
Arguments OutOfFuel {A}.

#[global] Instance result_ret : MRet result := fun _ a => Ok a.
#[global] Instance result_bind : MBind result := fun _ _ f r =>
  match r with
  | Ok a => f a
  | Panic => Panic
  | OutOfFuel => OutOfFuel
  end.

Definition is_Ok {A} (r : result A) : Prop := exists a, r = Ok a.

(** Indexing a slice, [s[i]], panics out of range. *)
Definition index {A} (s : list A) (i : nat) : result A :=
  match s !! i with
  | Some a => Ok a
  | None => Panic
  end.

(** The nil pointer. *)
Definition nil : N := 0%N.

(** An enumeration order for the keys of Go maps: the [n]-th [range] loop
    over a map with key set [s] visits [ord n s]. *)
Definition RangeOrder : Type := nat -> gset N -> list N.

Definition range_order_ok (ord : RangeOrder) : Prop :=
  forall n s, ord n s ≡ₚ elements s.

(** The order in which stdpp happens to list a set is one such oracle. *)
Definition elements_order : RangeOrder := fun _ s => elements s.

Module ossa.

(** *** op.go *)

Definition opInvalid : Z := 0.
Definition OpGlobalSym : Z := 1.
Definition OpLocalSym : Z := 2.
Definition OpArgument : Z := 3.
Definition OpAuxLiteral : Z := 4.
Definition OpPhi : Z := 5.
Definition OpLoad : Z := 6.
Definition OpStore : Z := 7.
Definition OpCall : Z := 8.
Definition opBasicBlock : Z := 9.
Definition opEndValues : Z := 10.
Definition OpJump : Z := 11.
Definition OpBranch : Z := 12.
Definition OpSwitch : Z := 13.
Definition OpReturn : Z := 14.
Definition OpYield : Z := 15.
Definition OpAwait : Z := 16.
Definition OpUnreachable : Z := 17.
Definition opEndTerminators : Z := 18.

Definition Op_Value (o : Z) : bool := (opInvalid <? o) && (o <? opEndValues).
Definition Op_Terminator (o : Z) : bool :=
  (opEndValues <? o) && (o <? opEndTerminators).
Definition Op_Valid (o : Z) : bool := Op_Value o || Op_Terminator o.

(** *** value.go *)

(** The auxiliary payload [aux interface{}]: absent, a literal (its Go
    value abstracted to a number), or the block of an internal
    [opBasicBlock] value. *)
Inductive Aux : Type :=
  | AuxNil
  | AuxGo (payload : Z)
  | AuxBlock (b : N).

Record Value : Type := mkValue {
  Value_op : Z;
  Value_args : list N;
  Value_aux : Aux
}.

(** Value nodes are compared by identity, so they live in a heap and the
    factories allocate. *)
Definition alloc {V} (h : gmap N V) : N := fresh ({[nil]} ∪ dom h).

Definition new_Value (h : gmap N Value) (v : Value) : gmap N Value * N :=
  let p := alloc h in (<[p := v]> h, p).

Definition AuxLiteral (h : gmap N Value) (v : Aux) : gmap N Value * N :=
  new_Value h (mkValue OpAuxLiteral [] v).

Definition GlobalSym (h : gmap N Value) : gmap N Value * N :=
  new_Value h (mkValue OpGlobalSym [] AuxNil).

Definition LocalSym (h : gmap N Value) : gmap N Value * N :=
  new_Value h (mkValue OpLocalSym [] AuxNil).

Definition Argument (h : gmap N Value) : gmap N Value * N :=
  new_Value h (mkValue OpArgument [] AuxNil).

(** [argsBuf [3]*Value] of a fresh node. *)
Definition Value_argsBuf : list N := [nil; nil; nil].

(** [Load]: [v.args = v.argsBuf[:1]; v.args[0] = ref]. *)
Definition Load (h : gmap N Value) (ref : N) : gmap N Value * N :=
  let v := alloc h in
  let args := take 1 Value_argsBuf in
  let args := <[0%nat := ref]> args in
  (<[v := mkValue OpLoad args AuxNil]> h, v).

(** [Store]: [v.args = v.argsBuf[:2]; v.args[0] = v; v.args[1] = ref],
    where [v] is the node under construction. *)
Definition Store (h : gmap N Value) (val ref : N) : gmap N Value * N :=
  let v := alloc h in
  let args := take 2 Value_argsBuf in
  let args := <[0%nat := v]> args in
  let args := <[1%nat := ref]> args in
  (<[v := mkValue OpStore args AuxNil]> h, v).

(** [Call]: the callee followed by the actual arguments. *)
Definition Call (h : gmap N Value) (callee : N) (args : list N)
  : gmap N Value * N :=
  let v := alloc h in
  let aa := [] ++ [callee] in
  let aa := foldl (fun aa a => aa ++ [a]) aa args in
  (<[v := mkValue OpCall aa AuxNil]> h, v).

(** *** basic_block.go, terminator.go *)

Record BasicBlockValue : Type := mkBBV {
  Block : N;
  Val : N
}.

Record Terminator : Type := mkTerminator {
  Terminator_op : Z;
  Terminator_args : list BasicBlockValue
}.

(** [argsBuf [2]BasicBlockValue] of a fresh terminator. *)
Definition Terminator_argsBuf : list BasicBlockValue :=
  [mkBBV nil nil; mkBBV nil nil].

Definition set_Block (b : N) (a : BasicBlockValue) : BasicBlockValue :=
  mkBBV b (Val a).
Definition set_Val (v : N) (a : BasicBlockValue) : BasicBlockValue :=
  mkBBV (Block a) v.

Definition Jump (target : N) : Terminator :=
  let buf := alter (set_Block target) 0%nat Terminator_argsBuf in
  mkTerminator OpJump (take 1 buf).

Definition Branch (cond trueTarget falseTarget : N) : Terminator :=
  let buf := alter (set_Val cond) 0%nat Terminator_argsBuf in
  let buf := alter (set_Block trueTarget) 0%nat buf in
  let buf := alter (set_Block falseTarget) 1%nat buf in
  mkTerminator OpBranch (take 2 buf).

(** [bufForArgs] returns a zero-length slice, either over [argsBuf] or
    freshly made; only its capacity differs. *)
Definition Terminator_bufForArgs (capacity : nat) : list BasicBlockValue :=
  if decide (capacity <= length Terminator_argsBuf)%nat
  then take 0 Terminator_argsBuf
  else [].

Definition Switch (inp defTarget : N) (cases : list BasicBlockValue)
  : Terminator :=
  let aa := Terminator_bufForArgs (length cases + 1) in
  let aa := aa ++ [mkBBV defTarget inp] in
  let aa := aa ++ cases in
  mkTerminator OpSwitch aa.

Definition Return (ret : N) : Terminator :=
  let buf := alter (set_Val ret) 0%nat Terminator_argsBuf in
  mkTerminator OpReturn (take 1 buf).

Definition Yield (resume : N) : Terminator :=
  let buf := alter (set_Block resume) 0%nat Terminator_argsBuf in
  mkTerminator OpYield (take 1 buf).

Definition Await (event resume : N) : Terminator :=
  let buf := alter (set_Val event) 0%nat Terminator_argsBuf in
  let buf := alter (set_Block resume) 0%nat buf in
  mkTerminator OpAwait (take 1 buf).

Definition Unreachable : Terminator := mkTerminator OpUnreachable [].

Definition AppendSuccessors (t : Terminator) (to : list N)
  : result (list N) :=
  let op := Terminator_op t in
  let args := Terminator_args t in
  if op =? OpJump then
    a0 ← index args 0; Ok (to ++ [Block a0])
  else if op =? OpBranch then
    a0 ← index args 0; a1 ← index args 1; Ok (to ++ [Block a0; Block a1])
  else if op =? OpSwitch then
    Ok (foldl (fun ret arg => ret ++ [Block arg]) to args)
  else if (op =? OpReturn) || (op =? OpUnreachable) then
    Ok to
  else if (op =? OpYield) || (op =? OpAwait) then
    a0 ← index args 0; Ok (to ++ [Block a0])
  else if Op_Terminator op then Panic
  else Panic.

(** *** collections.go, sets.go *)

(** [BasicBlockAdder]: a collection that blocks can be added to. *)
Class BasicBlockAdder (C : Type) : Type := Add : C -> N -> C.

(** [BasicBlockSet] is [map[*BasicBlock]struct{}]. *)
Definition BasicBlockSet_Has (s : gset N) (block : N) : bool :=
  bool_decide (block ∈ s).

#[global] Instance BasicBlockSet_Add : BasicBlockAdder (gset N) :=
  fun s block => s ∪ {[block]}.

Definition NewBasicBlockSet (blocks : list N) : gset N :=
  foldl (fun ret b => Add ret b) ∅ blocks.

Definition BasicBlockSet_Remove (s : gset N) (block : N) : gset N :=
  s ∖ {[block]}.

(** [AddBlocksTo] ranges over the set; the order comes from the caller. *)
Definition AddBlocksTo {C} {adder : BasicBlockAdder C} (order : list N)
    (to : C) : C :=
  foldl Add to order.

(** [Terminator.AddSuccessors]: a nil receiver panics on [t.op]. *)
Definition Terminator_AddSuccessors {C} {adder : BasicBlockAdder C}
    (t : option Terminator) (to : C) : result C :=
  match t with
  | None => Panic
  | Some t => succs ← AppendSuccessors t []; Ok (foldl Add to succs)
  end.

(** A basic block; [Term] is the Go field [Terminator], nil until the
    block is closed. *)
Record BasicBlock : Type := mkBasicBlock {
  Instructions : list N;
  Term : option Terminator
}.

Definition deref (h : gmap N BasicBlock) (b : N) : result BasicBlock :=
  if decide (b = nil) then Panic
  else match h !! b with
       | Some bb => Ok bb
       | None => Panic
       end.

Definition AddSuccessors {C} {adder : BasicBlockAdder C}
    (h : gmap N BasicBlock) (b : N) (to : C) : result C :=
  bb ← deref h b; Terminator_AddSuccessors (Term bb) to.

(** The successors of a block, [b.Terminator.AppendSuccessors(nil)]:
    the edges of the graph that leave [b]. *)
Definition successors (h : gmap N BasicBlock) (b : N) : result (list N) :=
  bb ← deref h b;
  match Term bb with
  | None => Panic
  | Some t => AppendSuccessors t []
  end.

(** [AddReachable]: the worklist loop, one iteration per unit of fuel.
    The successors pushed are those of the receiver [b]'s terminator. *)
Fixpoint AddReachable_loop (fuel : nat) (h : gmap N BasicBlock) (b : N)
    (todo : list N) (to : gset N) : result (gset N) :=
  match fuel with
  | O => OutOfFuel
  | S fuel =>
    match last todo with
    | None => Ok to
    | Some block =>
      let todo := removelast todo in
      if BasicBlockSet_Has to block then AddReachable_loop fuel h b todo to
      else
        let to := Add to block in
        bb ← deref h b;
        match Term bb with
        | None => Panic
        | Some t =>
          todo ← AppendSuccessors t todo;
          AddReachable_loop fuel h b todo to
        end
    end
  end.

Definition AddReachable (fuel : nat) (h : gmap N BasicBlock) (b : N)
    (to : gset N) : result (gset N) :=
  AddReachable_loop fuel h b ([] ++ [b]) to.

(** *** value.go, basic_block.go: phi nodes *)

(** [bbvsAsArgs]: for each pair, a new internal [opBasicBlock] value that
    carries the block, then the value of the pair. *)
Definition bbvsAsArgs (h : gmap N Value) (pairs : list BasicBlockValue)
  : gmap N Value * list N :=
  foldl (fun '(h, args) pair =>
           let '(h, p) :=
             new_Value h (mkValue opBasicBlock [] (AuxBlock (Block pair))) in
           (h, (args ++ [p]) ++ [Val pair]))
        (h, []) pairs.

Definition Phi (h : gmap N Value) (candidates : list BasicBlockValue)
  : gmap N Value * N :=
  let '(h, args) := bbvsAsArgs h candidates in
  new_Value h (mkValue OpPhi args AuxNil).

(** *** builder.go *)

Record Builder : Type := mkBuilder { Builder_block : N }.

Definition NewBuilder (block : N) : Builder := mkBuilder block.

Definition Builder_Block (b : Builder) : N := Builder_block b.

(** [NewBlock] allocates [&BasicBlock{}] and wraps a builder around it. *)
Definition Builder_NewBlock (bh : gmap N BasicBlock)
  : gmap N BasicBlock * Builder :=
  let block := alloc bh in
  (<[block := mkBasicBlock [] None]> bh, NewBuilder block).

(** [Open] reads [b.block.Terminator]: a nil block panics. *)
Definition Builder_Open (bh : gmap N BasicBlock) (b : Builder)
  : result bool :=
  bb ← deref bh (Builder_block b);
  Ok (match Term bb with
      | None => true
      | Some _ => false
      end).

Definition appendInstruction (bh : gmap N BasicBlock) (b : Builder) (v : N)
  : result (gmap N BasicBlock * N) :=
  o ← Builder_Open bh b;
  if negb o then Panic
  else
    bb ← deref bh (Builder_block b);
    Ok (<[Builder_block b :=
            mkBasicBlock (Instructions bb ++ [v]) (Term bb)]> bh, v).

Definition appendTerminator (bh : gmap N BasicBlock) (b : Builder)
    (t : Terminator) : result (gmap N BasicBlock * Terminator) :=
  o ← Builder_Open bh b;
  if negb o then Panic
  else
    bb ← deref bh (Builder_block b);
    Ok (<[Builder_block b := mkBasicBlock (Instructions bb) (Some t)]> bh, t).

(** The methods that build a value and append it.  The value is built
    first, then appended; both heaps are threaded. *)
Definition Builder_append (vh : gmap N Value) (bh : gmap N BasicBlock)
    (b : Builder) (built : gmap N Value * N)
  : result (gmap N Value * gmap N BasicBlock * N) :=
  let '(vh, v) := built in
  bv ← appendInstruction bh b v;
  Ok (vh, bv.1, bv.2).

Definition Builder_Phi vh bh b candidates :=
  Builder_append vh bh b (Phi vh candidates).
Definition Builder_Load vh bh b ref :=
  Builder_append vh bh b (Load vh ref).
Definition Builder_Store vh bh b val ref :=
  Builder_append vh bh b (Store vh val ref).
Definition Builder_Call vh bh b callee args :=
  Builder_append vh bh b (Call vh callee args).

(** The methods that build a terminator and close the block with it. *)
Definition Builder_Jump bh b target :=
  appendTerminator bh b (Jump target).
Definition Builder_Branch bh b cond trueTarget falseTarget :=
  appendTerminator bh b (Branch cond trueTarget falseTarget).
Definition Builder_Switch bh b inp defTarget cases :=
  appendTerminator bh b (Switch inp defTarget cases).
Definition Builder_Return bh b ret :=
  appendTerminator bh b (Return ret).
Definition Builder_Yield bh b resume :=
  appendTerminator bh b (Yield resume).
Definition Builder_Await bh b event resume :=
  appendTerminator bh b (Await event resume).

End ossa.

Module oana.
Import ossa.

(** *** queue.go *)

(** [blockLIFO]: a stack without duplicates. *)
Record blockLIFO : Type := mkLIFO {
  LIFO_items : list N;
  LIFO_present : gset N
}.

Definition newBlockLIFO (initialCapacity : nat) : blockLIFO := mkLIFO [] ∅.

#[global] Instance blockLIFO_Add : BasicBlockAdder blockLIFO := fun q block =>
  if BasicBlockSet_Has (LIFO_present q) block then q
  else mkLIFO (LIFO_items q ++ [block]) (Add (LIFO_present q) block).

Definition blockLIFO_Has (q : blockLIFO) (block : N) : bool :=
  BasicBlockSet_Has (LIFO_present q) block.

Definition blockLIFO_Empty (q : blockLIFO) : bool :=
  bool_decide (length (LIFO_items q) = 0%nat).

Definition blockLIFO_Length (q : blockLIFO) : Z :=
  Z.of_nat (length (LIFO_items q)).

(** [items[i], items[j] = items[j], items[i]] *)
Definition swap (items : list N) (i j : nat) : list N :=
  match items !! i, items !! j with
  | Some a, Some b => <[j := a]> (<[i := b]> items)
  | _, _ => items
  end.

(** [ReverseTopN]: the slice expression [q.items[l-n:]] panics unless
    [0 <= l-n <= l]; the swaps act in place on the top of the stack. *)
Definition blockLIFO_ReverseTopN (q : blockLIFO) (n : Z) : result blockLIFO :=
  let l := Z.of_nat (length (LIFO_items q)) in
  if decide (0 <= l - n <= l) then
    let k := Z.to_nat (l - n) in
    let items := drop k (LIFO_items q) in
    let l := length items in
    let c := (l / 2)%nat in
    let items :=
      foldl (fun items i => swap items i (l - i - 1)%nat) items (seq 0 c) in
    Ok (mkLIFO (take k (LIFO_items q) ++ items) (LIFO_present q))
  else Panic.

Definition blockLIFO_Peek (q : blockLIFO) : N :=
  if blockLIFO_Empty q then nil
  else default nil (last (LIFO_items q)).

Definition blockLIFO_Next (q : blockLIFO) : N * blockLIFO :=
  let ret := blockLIFO_Peek q in
  if decide (ret = nil) then (nil, q)
  else (ret, mkLIFO (removelast (LIFO_items q))
                    (BasicBlockSet_Remove (LIFO_present q) ret)).

(** [blockFIFO]: a queue without duplicates.  [FIFO_next] is the chain of
    entries that starts at the Go field [next], listed by their [block];
    the empty chain is [next == nil], and [end] is the last cell of the
    chain. *)
Record blockFIFO : Type := mkFIFO {
  FIFO_next : list N;
  FIFO_present : gset N
}.

Definition newblockFIFO : blockFIFO := mkFIFO [] ∅.

#[global] Instance blockFIFO_Add : BasicBlockAdder blockFIFO := fun q block =>
  if BasicBlockSet_Has (FIFO_present q) block then q
  else mkFIFO (FIFO_next q ++ [block]) (Add (FIFO_present q) block).

Definition blockFIFO_Has (q : blockFIFO) (block : N) : bool :=
  BasicBlockSet_Has (FIFO_present q) block.

Definition blockFIFO_Empty (q : blockFIFO) : bool :=
  match FIFO_next q with
  | [] => true
  | _ :: _ => false
  end.

(** [Peek] is [return q.next.block]: it dereferences [q.next]. *)
Definition blockFIFO_Peek (q : blockFIFO) : result N :=
  match FIFO_next q with
  | [] => Panic
  | block :: _ => Ok block
  end.

Definition blockFIFO_Next (q : blockFIFO) : N * blockFIFO :=
  match FIFO_next q with
  | [] => (nil, q)
  | ret :: rest =>
    (ret, mkFIFO rest (BasicBlockSet_Remove (FIFO_present q) ret))
  end.

(** *** data_flow.go *)

Class BlockAnalyzer (A : Type) : Type := AnalyzeBlock : A -> N -> A * bool.

(** One iteration of the loop of [ForwardDataFlow]. *)
Definition ForwardDataFlow_step {A} {impl : BlockAnalyzer A}
    (h : gmap N BasicBlock) (q : blockLIFO) (a : A)
  : result (blockLIFO * A) :=
  let '(block, q) := blockLIFO_Next q in
  let '(a, changed) := AnalyzeBlock a block in
  if changed : bool then
    let l := blockLIFO_Length q in
    q ← AddSuccessors h block q;
    q ← blockLIFO_ReverseTopN q (blockLIFO_Length q - l);
    Ok (q, a)
  else Ok (q, a).

Fixpoint ForwardDataFlow_loop {A} {impl : BlockAnalyzer A} (fuel : nat)
    (h : gmap N BasicBlock) (q : blockLIFO) (a : A) : result A :=
  match fuel with
  | O => OutOfFuel
  | S fuel =>
    if blockLIFO_Empty q then Ok a
    else
      qa ← ForwardDataFlow_step h q a;
      ForwardDataFlow_loop fuel h qa.1 qa.2
  end.

(** The analyzer is updated in place; the caller reads it afterwards. *)
Definition ForwardDataFlow {A} {impl : BlockAnalyzer A} (fuel : nat)
    (h : gmap N BasicBlock) (start : N) (analyzer : A) : result A :=
  let q := newBlockLIFO 6 in
  let q := Add q start in
  ForwardDataFlow_loop fuel h q analyzer.

(** *** data_flow_test.go: the logging analyzer *)

Record loggingBlockAnalyzer : Type := mkLogging {
  changeCount : gmap N Z;
  calls : list N
}.

#[global] Instance loggingBlockAnalyzer_AnalyzeBlock
  : BlockAnalyzer loggingBlockAnalyzer := fun a block =>
  let calls := calls a ++ [block] in
  let ct := default 0 (changeCount a !! block) in
  if 0 <? ct then (mkLogging (<[block := ct - 1]> (changeCount a)) calls, true)
  else (mkLogging (changeCount a) calls, false).

(** *** predecessors.go *)

(** Reading a table at a key it does not have gives the nil set, which
    behaves as the empty set. *)
Definition table_get (t : gmap N (gset N)) (b : N) : gset N :=
  default ∅ (t !! b).

(** The closure handed to [AddSuccessors] by [FindPredecessors]; it
    updates [ret] and [q] and reads [seen] and [pred]. *)
Definition FindPredecessors_visit (seen : gset N) (pred : N)
  : BasicBlockAdder (gmap N (gset N) * blockLIFO) := fun '(ret, q) succ =>
  let ret := match ret !! succ with
             | Some _ => ret
             | None => <[succ := ∅]> ret
             end in
  let ret := alter (fun s => Add s pred) succ ret in
  let q := if negb (BasicBlockSet_Has seen succ) then Add q succ else q in
  (ret, q).

Fixpoint FindPredecessors_loop (fuel : nat) (h : gmap N BasicBlock)
    (ret : gmap N (gset N)) (seen : gset N) (q : blockLIFO)
  : result (gmap N (gset N)) :=
  match fuel with
  | O => OutOfFuel
  | S fuel =>
    if blockLIFO_Empty q then Ok ret
    else
      let '(pred, q) := blockLIFO_Next q in
      let seen := Add seen pred in
      rq ← AddSuccessors (adder := FindPredecessors_visit seen pred)
             h pred (ret, q);
      FindPredecessors_loop fuel h rq.1 seen rq.2
  end.

Definition FindPredecessors (fuel : nat) (h : gmap N BasicBlock) (start : N)
  : result (gmap N (gset N)) :=
  let ret : gmap N (gset N) := ∅ in
  let seen : gset N := ∅ in
  let q := newBlockLIFO 6 in
  let q := Add q start in
  FindPredecessors_loop fuel h ret seen q.

(** *** dominators.go *)

(** The analyzer: the table [t] under construction and the predecessors
    [preds].  [ticks] is not a Go field: it counts the calls made so far
    and selects the enumeration order of the next
    [range a.preds[block]]. *)
Record dominatorsAnalyzer : Type := mkDominators {
  t : gmap N (gset N);
  preds : gmap N (gset N);
  ticks : nat
}.

(** [for b := range s { if !pd.Has(b) { s.Remove(b) } }], with [order]
    the order in which the members of [s] are enumerated. *)
Definition retain_in (order : list N) (pd s : gset N) : gset N :=
  foldl (fun s b => if BasicBlockSet_Has pd b then s
                    else BasicBlockSet_Remove s b) s order.

(** The set left by that loop and the one left by [pd.AddBlocksTo(s)] do
    not depend on the enumeration order (lemmas [retain_in_order] and
    [AddBlocksTo_order] below), so both loops take the members as
    [elements] lists them. *)
Definition retain (pd s : gset N) : gset N :=
  retain_in (elements s) pd s.

(** The body of [for p := range a.preds[block]].  The set [s] is the one
    stored at [t[block]], so every update of [s] is an update of the
    table, also when [p] is [block] itself. *)
Definition dominators_join (block : N) (st : gmap N (gset N) * bool) (p : N)
  : gmap N (gset N) * bool :=
  let '(t, first) := st in
  match t !! p with
  | None => (t, first)
  | Some pd =>
    if first then (alter (AddBlocksTo (elements pd)) block t, false)
    else (alter (retain pd) block t, first)
  end.

(** [AnalyzeBlock] on the table, with [order] the order in which
    [range a.preds[block]] yields the predecessors. *)
Definition dominators_update (order : list N) (t : gmap N (gset N))
    (block : N) : gmap N (gset N) * bool :=
  let t := match t !! block with
           | Some _ => t
           | None => <[block := ∅]> t
           end in
  let priorLen := size (table_get t block) in
  let '(t, _) := foldl (dominators_join block) (t, true) order in
  let t := alter (fun s => Add s block) block t in
  (t, negb (size (table_get t block) =? priorLen)%nat).

Definition dominatorsAnalyzer_AnalyzeBlock (ord : RangeOrder)
  : BlockAnalyzer dominatorsAnalyzer := fun a block =>
  let '(t, changed) :=
    dominators_update (ord (ticks a) (table_get (preds a) block))
                      (t a) block in
  (mkDominators t (preds a) (S (ticks a)), changed).

Definition FindDominators (ord : RangeOrder) (fuel : nat)
    (h : gmap N BasicBlock) (start : N) (preds : gmap N (gset N))
  : result (gmap N (gset N)) :=
  let a := mkDominators ∅ preds 0 in
  a ← ForwardDataFlow (impl := dominatorsAnalyzer_AnalyzeBlock ord)
         fuel h start a;
  Ok (t a).

(** *** natural_loops.go *)

Record NaturalLoop : Type := mkLoop {
  Head : N;
  Tail : N
}.

(** The closure handed to [AddSuccessors] by [FindNaturalLoops]. *)
Definition FindNaturalLoops_visit (block : N) (blockDoms : gset N)
  : BasicBlockAdder (list NaturalLoop) := fun to succ =>
  if negb (BasicBlockSet_Has blockDoms succ) then to
  else to ++ [mkLoop succ block].

Fixpoint FindNaturalLoops_range (h : gmap N BasicBlock)
    (doms : gmap N (gset N)) (keys : list N) (to : list NaturalLoop)
  : result (list NaturalLoop) :=
  match keys with
  | [] => Ok to
  | block :: keys =>
    let blockDoms := table_get doms block in
    to ← AddSuccessors
           (adder := FindNaturalLoops_visit block blockDoms)
           h block to;
    FindNaturalLoops_range h doms keys to
  end.

Definition FindNaturalLoops (ord : RangeOrder) (h : gmap N BasicBlock)
    (doms : gmap N (gset N)) (to : list NaturalLoop)
  : result (list NaturalLoop) :=
  FindNaturalLoops_range h doms (ord 0%nat (dom doms)) to.

Fixpoint FindBody_loop (ord : RangeOrder) (fuel : nat)
    (preds : gmap N (gset N)) (ret : gset N) (q : blockLIFO) (tick : nat)
  : result (gset N) :=
  match fuel with
  | O => OutOfFuel
  | S fuel =>
    if blockLIFO_Empty q then Ok ret
    else
      let '(block, q) := blockLIFO_Next q in
      if negb (BasicBlockSet_Has ret block) then
        let ret := Add ret block in
        let q := foldl Add q (ord tick (table_get preds block)) in
        FindBody_loop ord fuel preds ret q (S tick)
      else FindBody_loop ord fuel preds ret q tick
  end.

Definition FindBody (ord : RangeOrder) (fuel : nat) (l : NaturalLoop)
    (preds : gmap N (gset N)) : result (gset N) :=
  let ret := NewBasicBlockSet [Head l] in
  let q := newBlockLIFO 4 in
  let q := Add q (Tail l) in
  FindBody_loop ord fuel preds ret q 0%nat.

End oana.

Import ossa oana.

(** * Graphs, runs and specifications *)

(** ** The graphs of the test suite *)

Definition entry : N := 1%N.
Definition loopHeader : N := 2%N.
Definition loopBody : N := 3%N.
Definition exit : N := 4%N.
Definition loopTail : N := 5%N.

(** [ossa.AuxLiteral(nil)], allocated in an empty heap of values. *)
Definition lit : N := (AuxLiteral ∅ AuxNil).2.

Definition closed (t : Terminator) : BasicBlock := mkBasicBlock [] (Some t).

(** entry -> loopHeader; loopHeader -> (loopBody | exit);
    loopBody -> loopHeader; exit returns. *)
Definition loop_graph : gmap N BasicBlock :=
  <[entry := closed (Jump loopHeader)]>
  (<[loopHeader := closed (Branch lit loopBody exit)]>
  (<[loopBody := closed (Jump loopHeader)]>
  (<[exit := closed (Return lit)]> ∅))).

(** The same with [loopTail] between [loopBody] and [loopHeader]. *)
Definition tail_graph : gmap N BasicBlock :=
  <[entry := closed (Jump loopHeader)]>
  (<[loopHeader := closed (Branch lit loopBody exit)]>
  (<[loopBody := closed (Jump loopTail)]>
  (<[loopTail := closed (Jump loopHeader)]>
  (<[exit := closed (Return lit)]> ∅)))).

(** entry -> loopHeader -> exit, a chain without a loop. *)
Definition chain_graph : gmap N BasicBlock :=
  <[entry := closed (Jump loopHeader)]>
  (<[loopHeader := closed (Jump exit)]>
  (<[exit := closed (Return lit)]> ∅)).

(** entry -> loopBody -> entry: a loop through the start block. *)
Definition cycle_graph : gmap N BasicBlock :=
  <[entry := closed (Jump loopBody)]>
  (<[loopBody := closed (Jump entry)]> ∅).

(** A single block whose branch has the block itself as both targets. *)
Definition self_graph : gmap N BasicBlock :=
  <[loopHeader := closed (Branch lit loopHeader loopHeader)]> ∅.

(** A single block that is still open: it has no terminator. *)
Definition open_graph : gmap N BasicBlock :=
  <[loopHeader := mkBasicBlock [] None]> ∅.

(** The change counts of [TestForwardDataFlow]. *)
Definition test_changeCount : gmap N Z :=
  <[entry := 1]> (<[loopHeader := 2]> (<[loopBody := 1]> (<[exit := 1]> ∅))).

(** The predecessors in the loop graph, as [TestFindPredecessors] finds
    them (the start block has no key). *)
Definition loop_preds : gmap N (gset N) :=
  <[loopHeader := {[entry; loopBody]}]>
  (<[loopBody := {[loopHeader]}]>
  (<[exit := {[loopHeader]}]> ∅)).

(** The dominators in the loop graph, as [TestFindDominators] wants
    them. *)
Definition loop_doms : gmap N (gset N) :=
  <[entry := {[entry]}]>
  (<[loopHeader := {[entry; loopHeader]}]>
  (<[loopBody := {[entry; loopHeader; loopBody]}]>
  (<[exit := {[entry; loopHeader; exit]}]> ∅))).

Definition tail_preds : gmap N (gset N) :=
  <[loopHeader := {[entry; loopTail]}]>
  (<[loopBody := {[loopHeader]}]>
  (<[loopTail := {[loopBody]}]>
  (<[exit := {[loopHeader]}]> ∅))).

Definition cycle_preds : gmap N (gset N) :=
  <[entry := {[loopBody]}]> (<[loopBody := {[entry]}]> ∅).

(** The table that [FindDominators] returns on [cycle_graph]. *)
Definition cycle_doms : gmap N (gset N) :=
  <[entry := {[entry; loopBody]}]> (<[loopBody := {[entry; loopBody]}]> ∅).

(** A dominators table for [self_graph] and [open_graph]. *)
Definition self_doms : gmap N (gset N) := {[loopHeader := {[loopHeader]}]}.

(** ** Runs of the data-flow loop *)

(** The worklist and the analyzer after [n] iterations of the loop of
    [ForwardDataFlow] (fewer if the worklist empties before). *)
Fixpoint ForwardDataFlow_iter {A} {impl : BlockAnalyzer A} (n : nat)
    (h : gmap N BasicBlock) (q : blockLIFO) (a : A)
  : result (blockLIFO * A) :=
  match n with
  | O => Ok (q, a)
  | S n =>
    if blockLIFO_Empty q then Ok (q, a)
    else
      qa ← ForwardDataFlow_step h q a;
      ForwardDataFlow_iter n h qa.1 qa.2
  end.

(** ** Edges and reachability *)

Definition edge (h : gmap N BasicBlock) (p b : N) : Prop :=
  exists l, successors h p = Ok l /\ b ∈ l.

Definition reachable (h : gmap N BasicBlock) (start b : N) : Prop :=
  rtc (edge h) start b.

(** The terminators that the factories of the package build. *)
Inductive well_constructed : Terminator -> Prop :=
  | wc_Jump target : well_constructed (Jump target)
  | wc_Branch cond trueTarget falseTarget :
      well_constructed (Branch cond trueTarget falseTarget)
  | wc_Switch inp defTarget cases :
      well_constructed (Switch inp defTarget cases)
  | wc_Return ret : well_constructed (Return ret)
  | wc_Yield resume : well_constructed (Yield resume)
  | wc_Await event resume : well_constructed (Await event resume)
  | wc_Unreachable : well_constructed Unreachable.

(** [b] points to a block whose terminator has been assigned. *)
Definition has_terminator (h : gmap N BasicBlock) (b : N) : Prop :=
  b <> nil /\
  exists bb t, h !! b = Some bb /\ Term bb = Some t /\ well_constructed t.

(** The successor list of a block; empty when the block has none to
    give. *)
Definition succs (h : gmap N BasicBlock) (b : N) : list N :=
  match successors h b with
  | Ok l => l
  | _ => []
  end.

(** A set of blocks that all have successors to give, all of them in the
    set: whatever is reachable from a member is in the set. *)
Definition graph_closed (h : gmap N BasicBlock) (blocks : gset N) : bool :=
  forallb (fun p => match successors h p with
                    | Ok l => forallb (fun b => bool_decide (b ∈ blocks)) l
                    | _ => false
                    end) (elements blocks).

(** ** Worklists and predecessors *)

(** A stack is well formed when it has no duplicate and [present] is
    the set of its items. *)
Definition LIFO_wf (q : blockLIFO) : Prop :=
  NoDup (LIFO_items q) /\
  (forall x, x ∈ LIFO_present q <-> x ∈ LIFO_items q).

(** What holds of the table, the set of seen blocks and the worklist
    each time [FindPredecessors] tests its loop condition. *)
Definition FindPredecessors_inv (h : gmap N BasicBlock) (start : N)
    (ret : gmap N (gset N)) (seen : gset N) (q : blockLIFO) : Prop :=
  LIFO_wf q /\
  (forall x, x ∈ LIFO_items q -> x ∉ seen) /\
  (forall x, x ∈ seen \/ x ∈ LIFO_items q -> reachable h start x) /\
  (start ∈ seen \/ start ∈ LIFO_items q) /\
  (forall p b, p ∈ seen -> edge h p b -> b ∈ seen \/ b ∈ LIFO_items q) /\
  (forall b p, p ∈ table_get ret b <-> p ∈ seen /\ edge h p b) /\
  (forall b, b ∈ dom ret <-> exists p, p ∈ seen /\ edge h p b).

(** The table of the direct predecessors among the blocks reachable from
    [start]: a key for each block with an edge into it from a reachable
    block, holding exactly the reachable blocks with such an edge. *)
Definition predecessors_of (h : gmap N BasicBlock) (start : N)
    (preds : gmap N (gset N)) : Prop :=
  (forall b, b ∈ dom preds <-> exists p, reachable h start p /\ edge h p b) /\
  (forall b p, p ∈ table_get preds b <-> reachable h start p /\ edge h p b).

(** ** Back edges *)

(** The loops that the edges leaving [block] give: one for each place of
    its successor list that holds a member of its dominator set. *)
Definition back_edges (h : gmap N BasicBlock) (doms : gmap N (gset N))
    (block : N) : list NaturalLoop :=
  (fun succ => mkLoop succ block)
    <$> filter (fun succ => succ ∈ table_get doms block) (succs h block).

(** Reading of "exactly one loop for every pair (B, S)": the loops
    appended are pairwise distinct and are those of the pairs with [B] a
    key, [S] a successor of [B] and [S] in the dominator set of [B]. *)
Definition one_loop_per_pair (h : gmap N BasicBlock)
    (doms : gmap N (gset N)) (appended : list NaturalLoop) : Prop :=
  NoDup appended /\
  (forall l : NaturalLoop, l ∈ appended <->
     (Tail l ∈ dom doms) /\ edge h (Tail l) (Head l) /\
     (Head l ∈ table_get doms (Tail l))).

(** ** Further graphs and notions *)

(** entry -> loopHeader; loopHeader -> (loopHeader | exit); exit
    returns: a block that is its own predecessor. *)
Definition self_loop_graph : gmap N BasicBlock :=
  <[entry := closed (Jump loopHeader)]>
  (<[loopHeader := closed (Branch lit loopHeader exit)]>
  (<[exit := closed (Return lit)]> ∅)).

Definition self_loop_preds : gmap N (gset N) :=
  <[loopHeader := {[entry; loopHeader]}]> (<[exit := {[loopHeader]}]> ∅).

(** The enumeration order opposite to [elements_order]. *)
Definition reversed_order : RangeOrder := fun _ s => reverse (elements s).

(** A queue is well formed when it has no duplicate and [present] is the
    set of the blocks in its chain. *)
Definition FIFO_wf (q : blockFIFO) : Prop :=
  NoDup (FIFO_next q) /\
  (forall x, x ∈ FIFO_present q <-> x ∈ FIFO_next q).

(** The blocks that [n] successive calls of [Next] return. *)
Fixpoint blockFIFO_drain (n : nat) (q : blockFIFO) : list N * blockFIFO :=
  match n with
  | O => ([], q)
  | S n =>
    let '(x, q) := blockFIFO_Next q in
    let '(xs, q) := blockFIFO_drain n q in
    (x :: xs, q)
  end.

(** Every set of the table has its own key as a member. *)
Definition self_dominated (t : gmap N (gset N)) : Prop :=
  forall b s, t !! b = Some s -> b ∈ s.

(** The blocks that occur in some set of a table. *)
Definition table_blocks (t : gmap N (gset N)) : gset N :=
  union_list (snd <$> map_to_list t).

(** One step backwards from a block of a loop other than its head. *)
Definition body_step (preds : gmap N (gset N)) (head x y : N) : Prop :=
  x <> head /\ y ∈ table_get preds x.

(** [p] is a new node of [h']: not nil, not in [h], and [h'] keeps every
    node of [h] as it was. *)
Definition new_node (h h' : gmap N Value) (p : N) : Prop :=
  p <> nil /\ h !! p = None /\ is_Some (h' !! p) /\ h ⊆ h'.

(** The two tables that [FindDominators] returns on [self_loop_graph],
    according to which predecessor of loopHeader is enumerated first. *)
Definition self_loop_doms_self_first : gmap N (gset N) :=
  <[entry := {[entry]}]>
  (<[loopHeader := {[loopHeader]}]>
  (<[exit := {[loopHeader; exit]}]> ∅)).

Definition self_loop_doms_entry_first : gmap N (gset N) :=
  <[entry := {[entry]}]>
  (<[loopHeader := {[entry; loopHeader]}]>
  (<[exit := {[entry; loopHeader; exit]}]> ∅)).

(** What holds of the body under construction and the worklist each
    time [FindBody] tests its loop condition. *)
Definition FindBody_inv (preds : gmap N (gset N)) (head tail : N)
    (ret : gset N) (q : blockLIFO) : Prop :=
  LIFO_wf q /\
  head ∈ ret /\
  (forall x, x ∈ ret -> x = head \/ rtc (body_step preds head) tail x) /\
  (forall x, x ∈ LIFO_items q -> rtc (body_step preds head) tail x) /\
  (tail ∈ ret \/ tail ∈ LIFO_items q) /\
  (forall x y, x ∈ ret -> body_step preds head x y ->
               y ∈ ret \/ y ∈ LIFO_items q).

(** * Properties *)

(** ** Basic facts *)

Lemma foldl_snoc {A B} (f : B -> A) (to : list A) (l : list B) :
  foldl (fun ret x => ret ++ [f x]) to l = to ++ (f <$> l).
Proof.
  revert to. induction l as [|x l IH]; intros to; simpl.
  - by rewrite app_nil_r.
  - rewrite IH. by rewrite <- app_assoc.
Qed.

Lemma list_snoc_case {A} (l : list A) :
  l = [] \/ exists l' x, l = l' ++ [x].
Proof. induction l using rev_ind; eauto. Qed.

Lemma alloc_fresh {V} (h : gmap N V) : (alloc h ∉ dom h) /\ alloc h <> nil.
Proof.
  unfold alloc.
  pose proof (is_fresh ({[nil]} ∪ dom h)) as Hf.
  rewrite elem_of_union, elem_of_singleton in Hf. tauto.
Qed.

Lemma AddSuccessors_successors {C} (adder : BasicBlockAdder C) h b (to : C) :
  AddSuccessors h b to = (succs ← successors h b; Ok (foldl Add to succs)).
Proof.
  unfold AddSuccessors, successors.
  destruct (deref h b) as [bb| |]; simpl; try done.
  by destruct (Term bb).
Qed.

Lemma edge_successors h p l b :
  successors h p = Ok l -> (edge h p b <-> b ∈ l).
Proof.
  intros Hl. split.
  - intros (l' & Hl' & Hb). congruence.
  - intros Hb. by exists l.
Qed.

Lemma successors_allocated h b :
  is_Ok (successors h b) -> (b <> nil) /\ (b ∈ dom h).
Proof.
  intros [l Hl]. unfold successors, deref in Hl.
  destruct (decide (b = nil)); [done|]. split; [done|].
  apply elem_of_dom. destruct (h !! b); [by eexists|done].
Qed.

Lemma graph_closed_reachable h blocks start :
  graph_closed h blocks = true -> start ∈ blocks ->
  forall b, reachable h start b -> b ∈ blocks.
Proof.
  intros Hc Hs. unfold graph_closed in Hc.
  rewrite forallb_forall in Hc.
  apply (rtc_ind_r (fun b => b ∈ blocks)); [done|].
  intros y z _ (l & Hl & Hz) Hy. specialize (Hc y). rewrite Hl in Hc.
  rewrite forallb_forall in Hc.
  eapply bool_decide_eq_true_1, Hc; [|by apply list_elem_of_In].
  by apply list_elem_of_In, elem_of_elements.
Qed.

(** ** Fuel *)

(** A loop that ends within its fuel ends the same way with more. *)
Lemma ForwardDataFlow_loop_fuel {A} (impl : BlockAnalyzer A) fuel k h q a r :
  ForwardDataFlow_loop fuel h q a = Ok r ->
  ForwardDataFlow_loop (fuel + k) h q a = Ok r.
Proof.
  revert q a. induction fuel as [|fuel IH]; intros q a; [done|].
  cbn [ForwardDataFlow_loop Nat.add].
  destruct (blockLIFO_Empty q); [done|].
  destruct (ForwardDataFlow_step h q a) as [qa| |]; [|done..].
  apply IH.
Qed.

Lemma FindDominators_fuel ord fuel k h start preds r :
  FindDominators ord fuel h start preds = Ok r ->
  FindDominators ord (fuel + k) h start preds = Ok r.
Proof.
  unfold FindDominators, ForwardDataFlow.
  destruct (ForwardDataFlow_loop fuel _ _ _) as [a| |] eqn:E; [|done..].
  by rewrite (ForwardDataFlow_loop_fuel _ _ k _ _ _ _ E).
Qed.

Lemma AddReachable_loop_fuel fuel k h b todo to r :
  AddReachable_loop fuel h b todo to = Ok r ->
  AddReachable_loop (fuel + k) h b todo to = Ok r.
Proof.
  revert todo to. induction fuel as [|fuel IH]; intros todo to; [done|].
  cbn [AddReachable_loop Nat.add].
  destruct (last todo) as [block|]; [|done].
  destruct (BasicBlockSet_Has to block); [apply IH|].
  destruct (deref h b) as [bb| |]; [|done..]. cbn.
  destruct (Term bb) as [tm|]; [|done].
  destruct (AppendSuccessors tm (removelast todo)); [|done..].
  apply IH.
Qed.

Lemma FindPredecessors_loop_fuel fuel k h ret seen q r :
  FindPredecessors_loop fuel h ret seen q = Ok r ->
  FindPredecessors_loop (fuel + k) h ret seen q = Ok r.
Proof.
  revert ret seen q. induction fuel as [|fuel IH]; intros ret seen q; [done|].
  cbn [FindPredecessors_loop Nat.add].
  destruct (blockLIFO_Empty q); [done|].
  destruct (blockLIFO_Next q) as [pred q1].
  destruct (AddSuccessors h pred (ret, q1)) as [rq| |]; [|done..].
  apply IH.
Qed.

Lemma FindBody_loop_fuel ord fuel k preds ret q tick r :
  FindBody_loop ord fuel preds ret q tick = Ok r ->
  FindBody_loop ord (fuel + k) preds ret q tick = Ok r.
Proof.
  revert ret q tick.
  induction fuel as [|fuel IH]; intros ret q tick; [done|].
  cbn [FindBody_loop Nat.add].
  destruct (blockLIFO_Empty q); [done|].
  destruct (blockLIFO_Next q) as [block q1].
  destruct (negb (BasicBlockSet_Has ret block)); apply IH.
Qed.

(** ** Enumeration orders *)

Lemma Permutation_pair_inv {A} (x y : A) l :
  l ≡ₚ [x; y] -> l = [x; y] \/ l = [y; x].
Proof.
  intros H. symmetry in H. by apply Permutation_length_2_inv in H.
Qed.

(** Splits a hypothesis [ps ≡ₚ elements s], for a closed set [s] with at
    most two members, into the possible lists [ps]. *)
Ltac range_cases H :=
  match type of H with
  | _ ≡ₚ ?l =>
    let l' := eval vm_compute in l in
    change l with l' in H
  end;
  first
    [ apply Permutation_nil_r in H
    | apply Permutation_singleton_r in H
    | apply Permutation_pair_inv in H; destruct H as [H|H] ];
  subst.

(** The loops over sets inside [AnalyzeBlock] leave the same set in
    every enumeration order. *)
Lemma AddBlocksTo_elem_of (order : list N) (s : gset N) x :
  x ∈ AddBlocksTo order s <-> x ∈ s \/ x ∈ order.
Proof.
  unfold AddBlocksTo. revert s.
  induction order as [|b order IH]; intros s; cbn [foldl].
  - rewrite elem_of_nil. tauto.
  - rewrite IH. unfold Add, BasicBlockSet_Add.
    rewrite elem_of_union, elem_of_singleton, elem_of_cons. tauto.
Qed.

Lemma AddBlocksTo_order (order : list N) (pd s : gset N) :
  order ≡ₚ elements pd -> AddBlocksTo order s = s ∪ pd.
Proof.
  intros Hp. apply set_eq. intros x.
  by rewrite AddBlocksTo_elem_of, elem_of_union, Hp, elem_of_elements.
Qed.

Lemma retain_in_elem_of (order : list N) (pd s : gset N) x :
  x ∈ retain_in order pd s <-> x ∈ s /\ (x ∈ order -> x ∈ pd).
Proof.
  unfold retain_in. revert s.
  induction order as [|b order IH]; intros s; cbn [foldl].
  - rewrite elem_of_nil. tauto.
  - rewrite IH. unfold BasicBlockSet_Has, BasicBlockSet_Remove.
    rewrite elem_of_cons. case_bool_decide as Hb.
    + split; [intros [? ?]; split; [done|]; intros [->|?]; auto|].
      intros [? Hx]. auto.
    + rewrite elem_of_difference, elem_of_singleton.
      split; [intros [[? ?] ?]; split; [done|]; intros [->|?]; auto; done|].
      intros [? Hx]. split; [split; [done|]|by auto].
      intros ->. apply Hb, Hx. by left.
Qed.

Lemma retain_in_order (order : list N) (pd s : gset N) :
  order ≡ₚ elements s -> retain_in order pd s = s ∩ pd.
Proof.
  intros Hp. apply set_eq. intros x.
  rewrite retain_in_elem_of, elem_of_intersection, Hp, elem_of_elements.
  tauto.
Qed.

(** ** Terminators *)

Lemma AppendSuccessors_Switch inp defTarget cases (to : list N) :
  AppendSuccessors (Switch inp defTarget cases) to
  = Ok (to ++ defTarget :: (Block <$> cases)).
Proof.
  unfold Switch, AppendSuccessors. simpl Terminator_op. simpl Terminator_args.
  change (OpSwitch =? OpJump) with false.
  change (OpSwitch =? OpBranch) with false.
  change (OpSwitch =? OpSwitch) with true. cbv iota.
  rewrite foldl_snoc. f_equal. f_equal.
  unfold Terminator_bufForArgs. case_decide; simpl.
  all: done.
Qed.

Lemma well_constructed_successors t (to : list N) :
  well_constructed t -> is_Ok (AppendSuccessors t to).
Proof.
  intros []; eexists; reflexivity.
Qed.

Lemma has_terminator_successors h b :
  has_terminator h b -> is_Ok (successors h b).
Proof.
  intros (Hb & bb & t & Hbb & Ht & Hwc). unfold successors, deref.
  destruct (decide (b = nil)); [done|]. rewrite Hbb. cbn. rewrite Ht.
  by apply well_constructed_successors.
Qed.

(** C7. Every terminator built by a factory lists its successors in the
    order of its operation: jump the target; branch the true target then
    the false target; switch the default target then the case targets as
    declared; return and unreachable nothing; yield and await the resume
    block. *)
Theorem AppendSuccessors_factories (to : list N) :
  (forall target, AppendSuccessors (Jump target) to = Ok (to ++ [target])) /\
  (forall cond trueTarget falseTarget,
     AppendSuccessors (Branch cond trueTarget falseTarget) to
     = Ok (to ++ [trueTarget; falseTarget])) /\
  (forall inp defTarget cases,
     AppendSuccessors (Switch inp defTarget cases) to
     = Ok (to ++ defTarget :: (Block <$> cases))) /\
  (forall ret, AppendSuccessors (Return ret) to = Ok to) /\
  AppendSuccessors Unreachable to = Ok to /\
  (forall resume, AppendSuccessors (Yield resume) to = Ok (to ++ [resume])) /\
  (forall event resume,
     AppendSuccessors (Await event resume) to = Ok (to ++ [resume])).
Proof.
  repeat split; intros; try reflexivity. apply AppendSuccessors_Switch.
Qed.

(** ** Values *)

(** C8 (what the code does). The node returned by [Store] has the store
    operation and two arguments; the second is [ref], and the first is
    the returned node itself, a fresh node, whatever [val] is. *)
Theorem Store_first_argument_is_the_node (h : gmap N Value) (val ref : N) :
  let '(h', v) := Store h val ref in
  h' !! v = Some (mkValue OpStore [v; ref] AuxNil) /\ (v ∉ dom h) /\ v <> nil.
Proof.
  unfold Store. split; [|apply alloc_fresh].
  by rewrite lookup_insert_eq.
Qed.

(** ** Worklists *)

(** C9 (what the code does). [Peek] on an empty stack returns nil, but
    [Peek] on an empty queue panics. *)
Theorem Peek_empty :
  (forall n, blockLIFO_Peek (newBlockLIFO n) = nil) /\
  blockFIFO_Peek newblockFIFO = Panic.
Proof. split; reflexivity. Qed.

Lemma newBlockLIFO_wf n : LIFO_wf (newBlockLIFO n).
Proof.
  split; [apply NoDup_nil_2|]. intros x. cbn.
  rewrite elem_of_nil. split; [apply not_elem_of_empty|done].
Qed.

Lemma blockLIFO_Add_wf q x : LIFO_wf q -> LIFO_wf (Add q x).
Proof.
  intros [Hnd Hp]. unfold Add, blockLIFO_Add, BasicBlockSet_Has.
  case_bool_decide as Hx; [done|]. split; cbn.
  - apply NoDup_app. split; [done|]. split; [|apply NoDup_singleton].
    intros y Hy ->%list_elem_of_singleton. apply Hx. by apply Hp.
  - intros y. unfold Add, BasicBlockSet_Add.
    rewrite elem_of_union, elem_of_singleton, elem_of_app,
      list_elem_of_singleton. by rewrite Hp.
Qed.

Lemma blockLIFO_Add_items q x y :
  LIFO_wf q ->
  y ∈ LIFO_items (Add q x) <-> y ∈ LIFO_items q \/ y = x.
Proof.
  intros [Hnd Hp]. unfold Add, blockLIFO_Add, BasicBlockSet_Has.
  case_bool_decide as Hx; cbn.
  - split; [by left|]. intros [Hy| ->]; [done|]. by apply Hp.
  - by rewrite elem_of_app, list_elem_of_singleton.
Qed.

(** [Next] on a stack that is not empty and holds no nil takes the last
    item off. *)
Lemma blockLIFO_Next_pop q :
  LIFO_wf q -> blockLIFO_Empty q = false -> nil ∉ LIFO_items q ->
  exists its x q1,
    LIFO_items q = its ++ [x] /\ (x ∉ its) /\
    blockLIFO_Next q = (x, q1) /\ LIFO_items q1 = its /\ LIFO_wf q1.
Proof.
  intros [Hnd Hp] HE Hnil.
  destruct (list_snoc_case (LIFO_items q)) as [Hq|(its & x & Hq)].
  { unfold blockLIFO_Empty in HE. rewrite Hq in HE. done. }
  rewrite Hq in Hnd. apply NoDup_app in Hnd as (Hnd & Hx & _).
  assert (x ∉ its) as Hxi.
  { intros Hi. apply (Hx x Hi). apply list_elem_of_here. }
  exists its, x. eexists. split; [done|]. split; [done|].
  unfold blockLIFO_Next, blockLIFO_Peek. rewrite HE, Hq, last_snoc.
  cbn [default from_option]. unfold id. rewrite removelast_last.
  destruct (decide (x = nil)) as [->|_].
  { exfalso. apply Hnil. rewrite Hq. apply elem_of_app. right.
    apply list_elem_of_here. }
  split; [reflexivity|]. split; [reflexivity|]. split; [done|].
  intros y. cbn [LIFO_items LIFO_present]. unfold BasicBlockSet_Remove.
  rewrite elem_of_difference, elem_of_singleton, Hp, Hq, elem_of_app,
    list_elem_of_singleton.
  split; [intros [[?|?] ?]; done|]. intros Hy. split; [by left|].
  intros ->. done.
Qed.

(** ** Reachable blocks *)

(** C10 (what the code does). On the chain entry -> loopHeader -> exit,
    [AddReachable] from entry with an empty set ends with the set
    {entry, loopHeader}: exit is reachable and is left out. *)
Theorem AddReachable_chain (k : nat) :
  AddReachable (4 + k) chain_graph entry ∅ = Ok {[entry; loopHeader]} /\
  reachable chain_graph entry exit /\
  exit ∉ ({[entry; loopHeader]} : gset N).
Proof.
  split; [|split].
  - apply AddReachable_loop_fuel. vm_compute. reflexivity.
  - apply (rtc_l _ _ loopHeader); [|apply rtc_once].
    + exists [loopHeader]. split; [reflexivity|apply list_elem_of_here].
    + exists [exit]. split; [reflexivity|apply list_elem_of_here].
  - rewrite elem_of_union, !elem_of_singleton. intros [H|H]; discriminate H.
Qed.

(** ** Forward data flow *)

Lemma ForwardDataFlow_loop_step {A} (impl : BlockAnalyzer A)
    fuel h q a q2 a2 :
  blockLIFO_Empty q = false ->
  ForwardDataFlow_step h q a = Ok (q2, a2) ->
  ForwardDataFlow_loop (S fuel) h q a = ForwardDataFlow_loop fuel h q2 a2.
Proof. intros HE Hs. cbn [ForwardDataFlow_loop]. by rewrite HE, Hs. Qed.

Lemma ForwardDataFlow_iter_step {A} (impl : BlockAnalyzer A)
    n h q a q2 a2 :
  blockLIFO_Empty q = false ->
  ForwardDataFlow_step h q a = Ok (q2, a2) ->
  ForwardDataFlow_iter (S n) h q a = ForwardDataFlow_iter n h q2 a2.
Proof. intros HE Hs. cbn [ForwardDataFlow_iter]. by rewrite HE, Hs. Qed.

(** C3. On the loop graph, with change counts entry 1, loopHeader 2,
    loopBody 1, exit 1, the analyzer is called on entry, loopHeader,
    loopBody, loopHeader, loopBody, exit, in this order. *)
Theorem ForwardDataFlow_visit_order (k : nat) :
  exists a,
    ForwardDataFlow (7 + k) loop_graph entry (mkLogging test_changeCount [])
    = Ok a /\
    calls a = [entry; loopHeader; loopBody; loopHeader; loopBody; exit].
Proof.
  eexists. split.
  - apply ForwardDataFlow_loop_fuel. vm_compute. reflexivity.
  - reflexivity.
Qed.

(** ** Predecessors *)

(** The closure of [FindPredecessors] on one successor. *)
Lemma FindPredecessors_visit_one seen pred ret q succ :
  LIFO_wf q ->
  exists ret' q',
    FindPredecessors_visit seen pred (ret, q) succ = (ret', q') /\
    LIFO_wf q' /\
    (forall x, x ∈ LIFO_items q' <->
               x ∈ LIFO_items q \/ (x = succ /\ x ∉ seen)) /\
    (forall b p, p ∈ table_get ret' b <->
                 p ∈ table_get ret b \/ (p = pred /\ b = succ)) /\
    (forall b, b ∈ dom ret' <-> b ∈ dom ret \/ b = succ).
Proof.
  intros Hwf. do 2 eexists. split; [reflexivity|].
  unfold BasicBlockSet_Has. split; [|split; [|split]].
  - case_bool_decide; cbn [negb]; [done|]. by apply blockLIFO_Add_wf.
  - intros x. case_bool_decide as Hs; cbn [negb].
    + split; [by left|]. intros [?|[-> ?]]; done.
    + rewrite blockLIFO_Add_items by done.
      split; (intros [?|?]; [by left|right]); [by subst|tauto].
  - intros b p. unfold table_get. rewrite lookup_alter.
    case_decide as Hb.
    + subst b. destruct (ret !! succ) as [s|] eqn:Hr.
      * rewrite Hr. cbn. unfold Add, BasicBlockSet_Add.
        rewrite elem_of_union, elem_of_singleton. tauto.
      * rewrite lookup_insert_eq. cbn. unfold Add, BasicBlockSet_Add.
        rewrite elem_of_union, elem_of_singleton. tauto.
    + assert ((match ret !! succ with
               | Some _ => ret
               | None => <[succ := ∅]> ret
               end) !! b = ret !! b) as ->.
      { destruct (ret !! succ); [done|]. by rewrite lookup_insert_ne. }
      split; [by left|]. intros [?|[_ ?]]; [done|]. by subst.
  - intros b. rewrite dom_alter_L. destruct (ret !! succ) as [s|] eqn:Hr.
    + split; [by left|]. intros [?| ->]; [done|].
      apply elem_of_dom. by eexists.
    + rewrite dom_insert_L, elem_of_union, elem_of_singleton. tauto.
Qed.

(** The closure of [FindPredecessors] on a list of successors. *)
Lemma FindPredecessors_visit_fold seen pred (l : list N) ret q :
  LIFO_wf q ->
  exists ret' q',
    foldl (FindPredecessors_visit seen pred) (ret, q) l = (ret', q') /\
    LIFO_wf q' /\
    (forall x, x ∈ LIFO_items q' <->
               x ∈ LIFO_items q \/ (x ∈ l /\ x ∉ seen)) /\
    (forall b p, p ∈ table_get ret' b <->
                 p ∈ table_get ret b \/ (p = pred /\ b ∈ l)) /\
    (forall b, b ∈ dom ret' <-> b ∈ dom ret \/ b ∈ l).
Proof.
  revert ret q. induction l as [|succ l IH]; intros ret q Hwf.
  - exists ret, q. split; [done|]. split; [done|].
    split; [|split]; intros; rewrite ?elem_of_nil; tauto.
  - cbn [foldl].
    destruct (FindPredecessors_visit_one seen pred ret q succ Hwf)
      as (ret1 & q1 & -> & Hwf1 & Hq1 & Hr1 & Hd1).
    destruct (IH ret1 q1 Hwf1) as (ret' & q' & -> & Hwf' & Hq' & Hr' & Hd').
    exists ret', q'. split; [done|]. split; [done|].
    split; [|split].
    + intros x. rewrite Hq', Hq1, elem_of_cons. tauto.
    + intros b p. rewrite Hr', Hr1, elem_of_cons. tauto.
    + intros b. rewrite Hd', Hd1, elem_of_cons. tauto.
Qed.

(** C2 (as stated, refuted). On the loop graph the start block is
    reachable and has no entry in the table. *)
Lemma FindPredecessors_start_without_entry :
  FindPredecessors 5 loop_graph entry = Ok loop_preds /\
  reachable loop_graph entry entry /\
  loop_preds !! entry = None.
Proof.
  split; [vm_compute; reflexivity|]. split; [apply rtc_refl|].
  vm_compute. reflexivity.
Qed.

Section predecessors.

Variable h : gmap N BasicBlock.
Variable start : N.

(** Every block reachable from [start] has a terminator. *)
Hypothesis reachable_terminated :
  forall b, reachable h start b -> has_terminator h b.

Lemma reachable_closed b :
  reachable h start b -> is_Ok (successors h b).
Proof. intros Hb. by apply has_terminator_successors, reachable_terminated. Qed.

Lemma FindPredecessors_inv_init :
  FindPredecessors_inv h start ∅ ∅ (Add (newBlockLIFO 6) start).
Proof.
  pose proof (newBlockLIFO_wf 6) as Hwf0.
  assert (forall x, x ∈ LIFO_items (Add (newBlockLIFO 6) start) <-> x = start)
    as Hitems.
  { intros x. rewrite blockLIFO_Add_items by done. cbn.
    rewrite elem_of_nil. tauto. }
  split; [by apply blockLIFO_Add_wf|].
  split; [intros x _; apply not_elem_of_empty|].
  split.
  { intros x [Hx|Hx]; [by apply not_elem_of_empty in Hx|].
    apply Hitems in Hx as ->. apply rtc_refl. }
  split; [right; by apply Hitems|].
  split; [intros p b Hp; by apply not_elem_of_empty in Hp|].
  split.
  - intros b p. unfold table_get. rewrite lookup_empty. cbn.
    split; [intros Hp|intros [Hp _]]; by apply not_elem_of_empty in Hp.
  - intros b. rewrite dom_empty_L. split.
    + intros Hb. by apply not_elem_of_empty in Hb.
    + intros (p & Hp & _). by apply not_elem_of_empty in Hp.
Qed.

(** When the worklist is empty, the seen blocks are the reachable ones. *)
Lemma FindPredecessors_inv_done ret seen q :
  FindPredecessors_inv h start ret seen q ->
  blockLIFO_Empty q = true ->
  predecessors_of h start ret.
Proof.
  intros (_ & _ & Hreach & Hstart & Hclosed & Htab & Hdom) HE.
  assert (LIFO_items q = []) as Hq.
  { apply nil_length_inv. unfold blockLIFO_Empty in HE.
    by apply bool_decide_eq_true in HE. }
  rewrite Hq in *.
  assert (forall x, reachable h start x <-> x ∈ seen) as Hseen.
  { intros x. split; [|by intros; apply Hreach; left].
    revert x. apply (rtc_ind_r (fun x => x ∈ seen)).
    - destruct Hstart as [?|Hs]; [done|]. by apply elem_of_nil in Hs.
    - intros y z _ Hyz Hy. destruct (Hclosed y z) as [?|Hz]; try done.
      by apply elem_of_nil in Hz. }
  split.
  - intros b. rewrite Hdom. by setoid_rewrite Hseen.
  - intros b p. by rewrite Htab, Hseen.
Qed.

(** One iteration of the loop keeps the invariant and sees a new block. *)
Lemma FindPredecessors_inv_step ret seen q :
  FindPredecessors_inv h start ret seen q ->
  blockLIFO_Empty q = false ->
  exists pred q1 ret' q',
    blockLIFO_Next q = (pred, q1) /\
    AddSuccessors (adder := FindPredecessors_visit (Add seen pred) pred)
      h pred (ret, q1) = Ok (ret', q') /\
    FindPredecessors_inv h start ret' (Add seen pred) q' /\
    (pred ∈ dom h) /\ (pred ∉ seen).
Proof.
  intros (Hwf & Hfresh & Hreach & Hstart & Hclosed & Htab & Hdom) HE.
  assert (nil ∉ LIFO_items q) as Hnil.
  { intros Hn. destruct (successors_allocated h nil); [|done].
    apply reachable_closed, Hreach. by right. }
  destruct (blockLIFO_Next_pop q Hwf HE Hnil)
    as (its & pred & q1 & Hq & Hpi & HN & Hq1 & Hwf1).
  assert (pred ∈ LIFO_items q) as Hpq.
  { rewrite Hq. apply elem_of_app. right. apply list_elem_of_here. }
  assert (reachable h start pred) as Hrp by (apply Hreach; by right).
  destruct (reachable_closed pred Hrp) as [l Hl].
  destruct (FindPredecessors_visit_fold (Add seen pred) pred l ret q1 Hwf1)
    as (ret' & q' & Hfold & Hwf' & Hq' & Hr' & Hd').
  exists pred, q1, ret', q'. split; [done|]. split.
  { rewrite AddSuccessors_successors, Hl. cbn [mbind result_bind].
    unfold Add at 1. by rewrite Hfold. }
  split; [|split; [by apply successors_allocated; eexists|by apply Hfresh]].
  assert (forall x, x ∈ Add seen pred <-> x ∈ seen \/ x = pred) as Hseen.
  { intros x. unfold Add, BasicBlockSet_Add.
    by rewrite elem_of_union, elem_of_singleton. }
  assert (forall x, x ∈ LIFO_items q <-> x ∈ its \/ x = pred) as Hits.
  { intros x. by rewrite Hq, elem_of_app, list_elem_of_singleton. }
  rewrite Hq1 in Hq'.
  split; [done|]. split; [|split; [|split; [|split; [|split]]]].
  - intros x Hx. rewrite Hseen. apply Hq' in Hx as [Hx|[_ Hx]].
    + intros [Hs| ->]; [|done]. apply (Hfresh x); [|done].
      apply Hits. by left.
    + by rewrite Hseen in Hx.
  - intros x. rewrite Hseen, Hq'. intros [[Hx| ->]|[Hx|[Hx _]]].
    + apply Hreach. by left.
    + done.
    + apply Hreach. right. apply Hits. by left.
    + eapply rtc_r; [exact Hrp|]. by apply (edge_successors h pred l).
  - rewrite Hseen, Hq'. destruct Hstart as [?|Hs]; [by left; left|].
    apply Hits in Hs as [?| ->]; [right; by left|left; by right].
  - intros p b. rewrite !Hseen, Hq'. intros [Hp| ->] Hpb.
    + destruct (Hclosed p b Hp Hpb) as [?|Hb]; [by left; left|].
      apply Hits in Hb as [?| ->]; [right; by left|left; by right].
    + apply (edge_successors h pred l) in Hpb; [|done].
      destruct (decide (b ∈ seen)); [by left; left|].
      destruct (decide (b = pred)) as [->|]; [left; by right|].
      right. right. split; [done|]. rewrite Hseen. tauto.
  - intros b p. rewrite Hr', Htab, Hseen. split.
    + intros [[? ?]|[-> Hb]]; [tauto|].
      split; [by right|]. by apply (edge_successors h pred l).
    + intros [[?| ->] Hpb]; [by left|]. right. split; [done|].
      by apply (edge_successors h pred l) in Hpb.
  - intros b. rewrite Hd', Hdom. split.
    + intros [(p & ? & ?)|Hb].
      * exists p. rewrite Hseen. tauto.
      * exists pred. rewrite Hseen. split; [by right|].
        by apply (edge_successors h pred l).
    + intros (p & Hp & Hpb). apply Hseen in Hp as [?| ->].
      * left. by exists p.
      * right. by apply (edge_successors h pred l) in Hpb.
Qed.

(** The loop ends before its fuel when it has more fuel than there are
    allocated blocks still unseen. *)
Lemma FindPredecessors_loop_spec fuel ret seen q :
  FindPredecessors_inv h start ret seen q ->
  (size (dom h ∖ seen) < fuel)%nat ->
  exists preds,
    FindPredecessors_loop fuel h ret seen q = Ok preds /\
    predecessors_of h start preds.
Proof.
  revert ret seen q.
  induction fuel as [|fuel IH]; intros ret seen q Hinv Hfuel; [lia|].
  cbn [FindPredecessors_loop].
  destruct (blockLIFO_Empty q) eqn:HE.
  { exists ret. split; [done|]. by eapply FindPredecessors_inv_done. }
  destruct (FindPredecessors_inv_step ret seen q Hinv HE)
    as (pred & q1 & ret' & q' & -> & -> & Hinv' & Hpd & Hps).
  cbn [mbind result_bind fst snd]. apply IH; [done|].
  assert (dom h ∖ Add seen pred ⊂ dom h ∖ seen) as Hsub.
  { unfold Add, BasicBlockSet_Add. split.
    - intros x. rewrite !elem_of_difference, elem_of_union. tauto.
    - intros Hsub. specialize (Hsub pred). revert Hsub.
      rewrite !elem_of_difference, elem_of_union, elem_of_singleton.
      tauto. }
  apply subset_size in Hsub. lia.
Qed.

(** C2 (amended). When every block reachable from [start] has a
    terminator, [FindPredecessors] ends and its table has one entry for
    each block with an edge into it from a reachable block, that is for
    every reachable block other than [start], and for [start] only when
    an edge leads back to it; every entry is a non-empty set holding
    exactly the reachable blocks with an edge into its key. *)
Theorem FindPredecessors_table (fuel : nat) :
  (size (dom h) < fuel)%nat ->
  exists preds,
    FindPredecessors fuel h start = Ok preds /\
    predecessors_of h start preds /\
    (forall b, reachable h start b -> b <> start -> b ∈ dom preds) /\
    (forall b s, preds !! b = Some s -> reachable h start b /\ s <> ∅).
Proof.
  intros Hfuel.
  destruct (FindPredecessors_loop_spec fuel ∅ ∅
              (Add (newBlockLIFO 6) start) FindPredecessors_inv_init)
    as (preds & Hrun & Hdom & Htab).
  { by rewrite difference_empty_L. }
  exists preds. split; [exact Hrun|]. split; [by split|]. split.
  - intros b Hb Hne. apply Hdom.
    apply rtc_inv_r in Hb as [?|(p & Hp & Hpb)]; [done|]. by exists p.
  - intros b s Hs.
    assert (b ∈ dom preds) as Hb by (apply elem_of_dom; by eexists).
    apply Hdom in Hb as (p & Hp & Hpb). split.
    + by eapply rtc_r.
    + assert (p ∈ table_get preds b) as Hin by by apply Htab.
      unfold table_get in Hin. rewrite Hs in Hin. cbn in Hin.
      intros ->. by apply not_elem_of_empty in Hin.
Qed.

End predecessors.

(** The blocks of the loop graph all have terminators. *)
Lemma loop_graph_terminated b :
  reachable loop_graph entry b -> has_terminator loop_graph b.
Proof.
  intros Hb.
  apply (graph_closed_reachable loop_graph
           {[entry; loopHeader; loopBody; exit]}) in Hb;
    [|vm_compute; reflexivity..].
  rewrite !elem_of_union, !elem_of_singleton in Hb.
  destruct Hb as [[[->| ->]| ->]| ->]; (split; [done|]).
  - exists (closed (Jump loopHeader)), (Jump loopHeader).
    repeat split. constructor.
  - exists (closed (Branch lit loopBody exit)), (Branch lit loopBody exit).
    repeat split. constructor.
  - exists (closed (Jump loopHeader)), (Jump loopHeader).
    repeat split. constructor.
  - exists (closed (Return lit)), (Return lit).
    repeat split. constructor.
Qed.

(** The theorem at the loop graph. *)
Lemma FindPredecessors_table_witness :
  (forall b, reachable loop_graph entry b -> has_terminator loop_graph b) /\
  (size (dom loop_graph) < 5)%nat /\
  exists preds,
    FindPredecessors 5 loop_graph entry = Ok preds /\
    predecessors_of loop_graph entry preds /\
    (forall b, reachable loop_graph entry b -> b <> entry ->
               b ∈ dom preds) /\
    (forall b s, preds !! b = Some s ->
                 reachable loop_graph entry b /\ s <> ∅).
Proof.
  assert (size (dom loop_graph) < 5)%nat as Hsize by (vm_compute; lia).
  split; [exact loop_graph_terminated|]. split; [exact Hsize|].
  apply (FindPredecessors_table loop_graph entry loop_graph_terminated
           5 Hsize).
Defined.

(** ** Dominators *)

(** One call of the dominators analyzer, whatever order the predecessors
    are enumerated in. *)
Lemma dominators_AnalyzeBlock ord pr tb n block s tb2 changed :
  range_order_ok ord ->
  table_get pr block = s ->
  (forall ps, ps ≡ₚ elements s ->
     dominators_update ps tb block = (tb2, changed)) ->
  AnalyzeBlock (BlockAnalyzer := dominatorsAnalyzer_AnalyzeBlock ord)
    (mkDominators tb pr n) block
  = (mkDominators tb2 pr (S n), changed).
Proof.
  intros Hord Hs Hup.
  unfold AnalyzeBlock, dominatorsAnalyzer_AnalyzeBlock. cbn [t preds ticks].
  by rewrite (Hup (ord n (table_get pr block)))
    by (rewrite Hs; apply Hord).
Qed.

(** One iteration of the data-flow loop with that analyzer. *)
Lemma dominators_step ord pr h q tb n block q1 s tb2 changed q2 :
  range_order_ok ord ->
  blockLIFO_Next q = (block, q1) ->
  table_get pr block = s ->
  (forall ps, ps ≡ₚ elements s ->
     dominators_update ps tb block = (tb2, changed)) ->
  (if changed
   then q' ← AddSuccessors h block q1;
        blockLIFO_ReverseTopN q' (blockLIFO_Length q' - blockLIFO_Length q1)
   else Ok q1) = Ok q2 ->
  ForwardDataFlow_step (impl := dominatorsAnalyzer_AnalyzeBlock ord)
    h q (mkDominators tb pr n)
  = Ok (q2, mkDominators tb2 pr (S n)).
Proof.
  intros Hord HN Hs Hup Hq. unfold ForwardDataFlow_step. rewrite HN.
  rewrite (dominators_AnalyzeBlock _ _ _ _ _ s tb2 changed) by done.
  destruct changed; [|by inversion Hq].
  destruct (AddSuccessors h block q1) as [q'| |]; [|done..]. cbn in Hq |- *.
  by rewrite Hq.
Qed.

(** One visit of the dominators analyzer on closed data. *)
Ltac dominators_visit :=
  eapply dominators_step;
  [ assumption
  | vm_compute; reflexivity
  | vm_compute; reflexivity
  | let ps := fresh "ps" in let Hps := fresh "Hps" in
    intros ps Hps; range_cases Hps; vm_compute; reflexivity
  | vm_compute; reflexivity ].

Ltac dominators_loop_visit :=
  etrans;
  [ eapply ForwardDataFlow_loop_step;
    [ vm_compute; reflexivity | dominators_visit ] | ].

Ltac dominators_iter_visit :=
  etrans;
  [ eapply ForwardDataFlow_iter_step;
    [ vm_compute; reflexivity | dominators_visit ] | ].

(** C1. On the loop graph, the dominators computed from the predecessors
    of the same start block are entry:{entry},
    loopHeader:{entry,loopHeader}, loopBody:{entry,loopHeader,loopBody},
    exit:{entry,loopHeader,exit}, and the table has no other key,
    whatever order the predecessor sets are enumerated in. *)
Theorem FindDominators_loop_graph (ord : RangeOrder) (k : nat) :
  range_order_ok ord ->
  (preds ← FindPredecessors (5 + k) loop_graph entry;
   FindDominators ord (6 + k) loop_graph entry preds) = Ok loop_doms.
Proof.
  intros Hord.
  assert (FindPredecessors (5 + k) loop_graph entry = Ok loop_preds) as ->.
  { apply FindPredecessors_loop_fuel. vm_compute. reflexivity. }
  change (FindDominators ord (6 + k) loop_graph entry loop_preds
          = Ok loop_doms).
  apply FindDominators_fuel. unfold FindDominators, ForwardDataFlow.
  etrans.
  { apply (f_equal (fun r => a ← r; Ok (t a))).
    do 5 dominators_loop_visit. reflexivity. }
  vm_compute. reflexivity.
Qed.

(** The theorem at the order in which [elements] lists a set. *)
Lemma FindDominators_loop_graph_witness :
  range_order_ok elements_order /\
  (preds ← FindPredecessors 5 loop_graph entry;
   FindDominators elements_order 6 loop_graph entry preds) = Ok loop_doms.
Proof.
  split.
  - intros n s. reflexivity.
  - apply (FindDominators_loop_graph elements_order 0).
    intros n s. reflexivity.
Defined.

(** C4 (what the code does). On the graph entry -> loopBody -> entry the
    third call of the analyzer is the second visit of entry: its set was
    initialised to {entry} by the first visit, and this visit makes it
    {entry, loopBody}, a strict superset, and reports a change.  The
    table returned has loopBody among the dominators of entry. *)
Theorem dominators_grow_on_cycle (ord : RangeOrder) :
  range_order_ok ord ->
  FindPredecessors 3 cycle_graph entry = Ok cycle_preds /\
  (exists q tb n a',
     ForwardDataFlow_iter (impl := dominatorsAnalyzer_AnalyzeBlock ord)
       2 cycle_graph (Add (newBlockLIFO 6) entry)
       (mkDominators ∅ cycle_preds 0)
     = Ok (q, mkDominators tb cycle_preds n) /\
     blockLIFO_Peek q = entry /\
     tb !! entry = Some {[entry]} /\
     AnalyzeBlock (BlockAnalyzer := dominatorsAnalyzer_AnalyzeBlock ord)
       (mkDominators tb cycle_preds n) entry = (a', true) /\
     t a' !! entry = Some {[entry; loopBody]}) /\
  FindDominators ord 5 cycle_graph entry cycle_preds = Ok cycle_doms.
Proof.
  intros Hord. split; [vm_compute; reflexivity|]. split.
  - do 4 eexists. split; [|split; [|split; [|split]]].
    + do 2 dominators_iter_visit. reflexivity.
    + vm_compute. reflexivity.
    + vm_compute. reflexivity.
    + eapply dominators_AnalyzeBlock;
        [ assumption | vm_compute; reflexivity
        | intros ps Hps; range_cases Hps; vm_compute; reflexivity ].
    + vm_compute. reflexivity.
  - unfold FindDominators, ForwardDataFlow.
    etrans.
    { apply (f_equal (fun r => a ← r; Ok (t a))).
      do 4 dominators_loop_visit. reflexivity. }
    vm_compute. reflexivity.
Qed.

(** The theorem at the order in which [elements] lists a set. *)
Lemma dominators_grow_on_cycle_witness :
  range_order_ok elements_order /\
  FindDominators elements_order 5 cycle_graph entry cycle_preds
  = Ok cycle_doms.
Proof.
  split.
  - intros n s. reflexivity.
  - apply (dominators_grow_on_cycle elements_order).
    intros n s. reflexivity.
Defined.

(** ** Natural loops *)

Lemma FindNaturalLoops_visit_fold block blockDoms (l : list N) to :
  foldl (FindNaturalLoops_visit block blockDoms) to l
  = to ++ ((fun succ => mkLoop succ block)
             <$> filter (fun succ => succ ∈ blockDoms) l).
Proof.
  revert to. induction l as [|x l IH]; intros to; cbn [foldl].
  - by rewrite app_nil_r.
  - rewrite IH, filter_cons. unfold FindNaturalLoops_visit.
    unfold BasicBlockSet_Has. case_bool_decide; case_decide; try done.
    cbn [negb]. by rewrite fmap_cons, <- app_assoc.
Qed.

Lemma FindNaturalLoops_range_spec h doms keys to :
  (forall b, b ∈ keys -> has_terminator h b) ->
  FindNaturalLoops_range h doms keys to
  = Ok (to ++ concat (back_edges h doms <$> keys)).
Proof.
  revert to. induction keys as [|b keys IH]; intros to Hk.
  - cbn. by rewrite app_nil_r.
  - cbn [FindNaturalLoops_range]. rewrite AddSuccessors_successors.
    destruct (has_terminator_successors h b) as [l Hl];
      [apply Hk, list_elem_of_here|].
    rewrite Hl. cbn [mbind result_bind].
    unfold Add. rewrite FindNaturalLoops_visit_fold.
    rewrite IH by (intros; apply Hk; by apply list_elem_of_further).
    rewrite fmap_cons. cbn [concat]. rewrite <- app_assoc.
    unfold back_edges at 2, succs. by rewrite Hl.
Qed.

(** A key of the table that is a block without terminator makes
    [FindNaturalLoops] panic. *)
Lemma FindNaturalLoops_open_block :
  FindNaturalLoops elements_order open_graph self_doms [] = Panic.
Proof. vm_compute. reflexivity. Qed.

(** C6 (as stated, refuted). With a branch whose two targets are the
    block itself and a table in which the block dominates itself, the
    loop of the single pair is appended twice. *)
Lemma FindNaturalLoops_twice :
  FindNaturalLoops elements_order self_graph self_doms []
  = Ok [mkLoop loopHeader loopHeader; mkLoop loopHeader loopHeader] /\
  ~ (exists appended,
       FindNaturalLoops elements_order self_graph self_doms []
       = Ok ([] ++ appended) /\
       one_loop_per_pair self_graph self_doms appended).
Proof.
  assert (FindNaturalLoops elements_order self_graph self_doms []
          = Ok [mkLoop loopHeader loopHeader; mkLoop loopHeader loopHeader])
    as Hrun by (vm_compute; reflexivity).
  split; [exact Hrun|].
  intros (appended & Happ & Hnd & _). rewrite Hrun in Happ.
  injection Happ as <-. apply NoDup_cons in Hnd as [Hnd _].
  apply Hnd, list_elem_of_here.
Qed.

(** C6 (amended). When every key of the table is a block with a
    terminator, [FindNaturalLoops] returns the given sequence followed,
    for the keys taken in some order, by the loops of each key: one loop
    {head: S, tail: B} for each place of B's successor list that holds a
    member S of B's dominator set, in the order of that list. *)
Theorem FindNaturalLoops_appends (ord : RangeOrder) (h : gmap N BasicBlock)
    (doms : gmap N (gset N)) (to : list NaturalLoop) :
  range_order_ok ord ->
  (forall b, b ∈ dom doms -> has_terminator h b) ->
  exists keys,
    keys ≡ₚ elements (dom doms) /\
    FindNaturalLoops ord h doms to
    = Ok (to ++ concat (back_edges h doms <$> keys)).
Proof.
  intros Hord Hk. exists (ord 0%nat (dom doms)). split; [apply Hord|].
  apply FindNaturalLoops_range_spec. intros b Hb. apply Hk.
  by rewrite (Hord 0%nat (dom doms)), elem_of_elements in Hb.
Qed.

(** The theorem at the graph and the table of the refutation. *)
Lemma FindNaturalLoops_appends_witness :
  range_order_ok elements_order /\
  (forall b, b ∈ dom self_doms -> has_terminator self_graph b) /\
  exists keys,
    keys ≡ₚ elements (dom self_doms) /\
    FindNaturalLoops elements_order self_graph self_doms []
    = Ok ([] ++ concat (back_edges self_graph self_doms <$> keys)).
Proof.
  assert (forall b, b ∈ dom self_doms -> has_terminator self_graph b)
    as Hkeys.
  { intros b Hb. unfold self_doms in Hb.
    rewrite dom_singleton_L, elem_of_singleton in Hb. subst b.
    split; [done|].
    exists (closed (Branch lit loopHeader loopHeader)),
           (Branch lit loopHeader loopHeader).
    repeat split. constructor. }
  split; [intros n s; reflexivity|]. split; [exact Hkeys|].
  apply (FindNaturalLoops_appends elements_order self_graph self_doms []).
  - intros n s. reflexivity.
  - exact Hkeys.
Defined.

Lemma FindBody_loop_visit ord fuel preds ret q tick block q1 s q2 :
  range_order_ok ord ->
  blockLIFO_Empty q = false ->
  blockLIFO_Next q = (block, q1) ->
  BasicBlockSet_Has ret block = false ->
  table_get preds block = s ->
  (forall ps, ps ≡ₚ elements s -> foldl Add q1 ps = q2) ->
  FindBody_loop ord (S fuel) preds ret q tick
  = FindBody_loop ord fuel preds (Add ret block) q2 (S tick).
Proof.
  intros Hord HE HN HH Hs Hq. cbn [FindBody_loop]. rewrite HE, HN, HH.
  cbn [negb]. by rewrite (Hq (ord tick (table_get preds block)))
    by (rewrite Hs; apply Hord).
Qed.

Lemma FindBody_loop_skip ord fuel preds ret q tick block q1 :
  blockLIFO_Empty q = false ->
  blockLIFO_Next q = (block, q1) ->
  BasicBlockSet_Has ret block = true ->
  FindBody_loop ord (S fuel) preds ret q tick
  = FindBody_loop ord fuel preds ret q1 tick.
Proof. intros HE HN HH. cbn [FindBody_loop]. by rewrite HE, HN, HH. Qed.

(** One iteration of the loop of [FindBody] on closed data: the block
    taken is new, or it is already in the body. *)
Ltac FindBody_visit :=
  etrans;
  [ eapply FindBody_loop_visit;
    [ assumption
    | vm_compute; reflexivity | vm_compute; reflexivity
    | vm_compute; reflexivity | vm_compute; reflexivity
    | let ps := fresh "ps" in let Hps := fresh "Hps" in
      intros ps Hps; range_cases Hps; vm_compute; reflexivity ] | ].

Ltac FindBody_skip :=
  etrans;
  [ eapply FindBody_loop_skip;
    [ vm_compute; reflexivity | vm_compute; reflexivity
    | vm_compute; reflexivity ] | ].

(** C5. On the graph with loopTail, with the predecessors computed from
    entry, the body of the loop with head loopHeader and tail loopTail is
    exactly {loopHeader, loopBody, loopTail}, whatever order the
    predecessor sets are enumerated in. *)
Theorem FindBody_tail_graph (ord : RangeOrder) (k : nat) :
  range_order_ok ord ->
  (preds ← FindPredecessors (6 + k) tail_graph entry;
   FindBody ord (4 + k) (mkLoop loopHeader loopTail) preds)
  = Ok {[loopHeader; loopBody; loopTail]}.
Proof.
  intros Hord.
  assert (FindPredecessors (6 + k) tail_graph entry = Ok tail_preds) as ->.
  { apply FindPredecessors_loop_fuel. vm_compute. reflexivity. }
  change (FindBody ord (4 + k) (mkLoop loopHeader loopTail) tail_preds
          = Ok {[loopHeader; loopBody; loopTail]}).
  apply FindBody_loop_fuel.
  do 2 FindBody_visit. FindBody_skip.
  vm_compute. reflexivity.
Qed.

(** The theorem at the order in which [elements] lists a set. *)
Lemma FindBody_tail_graph_witness :
  range_order_ok elements_order /\
  (preds ← FindPredecessors 6 tail_graph entry;
   FindBody elements_order 4 (mkLoop loopHeader loopTail) preds)
  = Ok {[loopHeader; loopBody; loopTail]}.
Proof.
  split.
  - intros n s. reflexivity.
  - apply (FindBody_tail_graph elements_order 0).
    intros n s. reflexivity.
Defined.

(** * Further properties *)

(** ** Operation codes *)

(** X1. No operation is both a value operation and a terminator
    operation; the valid operations are those of the two ranges, and the
    zero operation and the two range ends are not valid. *)
Theorem Op_ranges (o : Z) :
  (Op_Value o && Op_Terminator o = false) /\
  (Op_Valid o = true <->
   (OpGlobalSym <= o <= opBasicBlock) \/ (OpJump <= o <= OpUnreachable)) /\
  Op_Valid opInvalid = false /\
  Op_Valid opEndValues = false /\
  Op_Valid opEndTerminators = false.
Proof.
  unfold Op_Valid, Op_Value, Op_Terminator, opInvalid, opEndValues,
    opEndTerminators, OpGlobalSym, opBasicBlock, OpJump, OpUnreachable.
  repeat split; try reflexivity.
  - destruct (Z.ltb_spec 0 o), (Z.ltb_spec o 10), (Z.ltb_spec 10 o),
      (Z.ltb_spec o 18); try reflexivity; lia.
  - destruct (Z.ltb_spec 0 o), (Z.ltb_spec o 10), (Z.ltb_spec 10 o),
      (Z.ltb_spec o 18); cbn; intros; try discriminate; lia.
  - destruct (Z.ltb_spec 0 o), (Z.ltb_spec o 10), (Z.ltb_spec 10 o),
      (Z.ltb_spec o 18); cbn; intros; try reflexivity; lia.
Qed.

(** X2. Enumerating the successors of a terminator whose operation is
    not a terminator operation panics, whatever its arguments. *)
Theorem AppendSuccessors_not_terminator (t : Terminator) (to : list N) :
  Op_Terminator (Terminator_op t) = false ->
  AppendSuccessors t to = Panic.
Proof.
  unfold AppendSuccessors, Op_Terminator, opEndValues, opEndTerminators,
    OpJump, OpBranch, OpSwitch, OpReturn, OpUnreachable, OpYield, OpAwait.
  intros Hop.
  destruct (Z.eqb_spec (Terminator_op t) 11) as [E|_];
    [rewrite E in Hop; discriminate Hop|].
  destruct (Z.eqb_spec (Terminator_op t) 12) as [E|_];
    [rewrite E in Hop; discriminate Hop|].
  destruct (Z.eqb_spec (Terminator_op t) 13) as [E|_];
    [rewrite E in Hop; discriminate Hop|].
  destruct (Z.eqb_spec (Terminator_op t) 14) as [E|_];
    [rewrite E in Hop; discriminate Hop|].
  destruct (Z.eqb_spec (Terminator_op t) 17) as [E|_];
    [rewrite E in Hop; discriminate Hop|].
  destruct (Z.eqb_spec (Terminator_op t) 15) as [E|_];
    [rewrite E in Hop; discriminate Hop|].
  destruct (Z.eqb_spec (Terminator_op t) 16) as [E|_];
    [rewrite E in Hop; discriminate Hop|].
  cbn. by rewrite Hop.
Qed.

Lemma AppendSuccessors_not_terminator_witness :
  Op_Terminator (Terminator_op (mkTerminator OpStore [])) = false /\
  AppendSuccessors (mkTerminator OpStore []) [] = Panic.
Proof.
  split; [reflexivity|].
  apply (AppendSuccessors_not_terminator (mkTerminator OpStore []) []).
  reflexivity.
Defined.

(** X3. The switch of [AppendSuccessors] has a case for every terminator
    operation: with a terminator operation and at least two arguments it
    never panics. *)
Theorem AppendSuccessors_exhaustive (t : Terminator) (to : list N) :
  Op_Terminator (Terminator_op t) = true ->
  (2 <= length (Terminator_args t))%nat ->
  is_Ok (AppendSuccessors t to).
Proof.
  destruct t as [op args]. cbn [Terminator_op Terminator_args].
  unfold Op_Terminator, opEndValues, opEndTerminators. intros Hop Hlen.
  apply andb_true_iff in Hop as [H1%Z.ltb_lt H2%Z.ltb_lt].
  destruct args as [|a0 [|a1 args]]; [cbn in Hlen; lia..|].
  assert (op = 11 \/ op = 12 \/ op = 13 \/ op = 14 \/ op = 15 \/ op = 16
          \/ op = 17) as Hcases by lia.
  destruct Hcases as [->|[->|[->|[->|[->|[->| ->]]]]]];
    eexists; reflexivity.
Qed.

Lemma AppendSuccessors_exhaustive_witness :
  Op_Terminator (Terminator_op (Branch lit loopBody exit)) = true /\
  (2 <= length (Terminator_args (Branch lit loopBody exit)))%nat /\
  is_Ok (AppendSuccessors (Branch lit loopBody exit) []).
Proof.
  split; [reflexivity|]. split; [cbn; lia|].
  apply (AppendSuccessors_exhaustive (Branch lit loopBody exit) []).
  - reflexivity.
  - cbn. lia.
Defined.

(** ** Value nodes *)

Lemma insert_alloc_new_node (h : gmap N Value) (v : Value) :
  new_node h (<[alloc h := v]> h) (alloc h).
Proof.
  destruct (alloc_fresh h) as [Hf Hn].
  apply not_elem_of_dom in Hf.
  split; [done|]. split; [done|]. split.
  - rewrite lookup_insert_eq. by eexists.
  - by apply insert_subseteq.
Qed.

Lemma new_node_trans (h h1 h2 : gmap N Value) p :
  h ⊆ h1 -> new_node h1 h2 p -> new_node h h2 p.
Proof.
  intros Hsub (Hn & Hf & Hs & Hsub2). split; [done|]. split.
  - destruct (h !! p) as [v|] eqn:E; [|done].
    eapply lookup_weaken in E; [|exact Hsub]. congruence.
  - split; [done|]. by etrans.
Qed.

(** The arguments built for the pairs of a phi node. *)
Lemma bbvsAsArgs_spec (h : gmap N Value) (pairs : list BasicBlockValue) :
  exists h1 args,
    bbvsAsArgs h pairs = (h1, args) /\ h ⊆ h1 /\
    length args = (2 * length pairs)%nat /\
    (forall i c, pairs !! i = Some c ->
       args !! (2 * i + 1)%nat = Some (Val c) /\
       exists bp,
         args !! (2 * i)%nat = Some bp /\ h !! bp = None /\
         h1 !! bp = Some (mkValue opBasicBlock [] (AuxBlock (Block c)))).
Proof.
  unfold bbvsAsArgs.
  induction pairs as [|c pairs IH] using rev_ind.
  - exists h, []. split; [done|]. split; [done|]. split; [done|].
    intros i c Hc. by rewrite lookup_nil in Hc.
  - destruct IH as (h1 & args & Hrun & Hsub & Hlen & Hargs).
    rewrite foldl_app, Hrun. cbn [foldl]. unfold new_Value.
    destruct (insert_alloc_new_node h1
                (mkValue opBasicBlock [] (AuxBlock (Block c))))
      as (Hn & Hf & _ & Hsub1).
    do 2 eexists. split; [reflexivity|]. split; [by etrans|].
    split; [rewrite !length_app; cbn; lia|].
    intros i c' Hc'.
    destruct (decide (i < length pairs)%nat) as [Hi|Hi].
    + rewrite lookup_app_l in Hc' by done.
      destruct (Hargs i c' Hc') as (Hv & bp & Hbp & Hfresh & Hnode).
      rewrite <- app_assoc.
      split; [rewrite lookup_app_l by lia; done|].
      exists bp. rewrite lookup_app_l by lia.
      split; [done|]. split; [done|].
      eapply lookup_weaken; [exact Hnode|exact Hsub1].
    + assert (i = length pairs) as ->.
      { apply lookup_lt_Some in Hc'. rewrite length_app in Hc'.
        cbn in Hc'. lia. }
      rewrite list_lookup_middle in Hc' by done.
      injection Hc' as <-. split.
      * rewrite <- app_assoc, lookup_app_r by lia.
        by replace (2 * length pairs + 1 - length args)%nat
          with 1%nat by lia.
      * exists (alloc h1). split; [|split].
        -- rewrite <- app_assoc. apply list_lookup_middle. lia.
        -- destruct (h !! alloc h1) as [v|] eqn:E; [|done].
           eapply lookup_weaken in E; [|exact Hsub]. congruence.
        -- by rewrite lookup_insert_eq.
Qed.

(** X4. Every value factory returns a new node: a pointer that is not
    nil and was not in use, in a heap that keeps every earlier node as
    it was. *)
Theorem Value_factories_allocate (h : gmap N Value) :
  (forall v, new_node h (AuxLiteral h v).1 (AuxLiteral h v).2) /\
  new_node h (GlobalSym h).1 (GlobalSym h).2 /\
  new_node h (LocalSym h).1 (LocalSym h).2 /\
  new_node h (Argument h).1 (Argument h).2 /\
  (forall cs, new_node h (Phi h cs).1 (Phi h cs).2) /\
  (forall ref, new_node h (Load h ref).1 (Load h ref).2) /\
  (forall val ref, new_node h (Store h val ref).1 (Store h val ref).2) /\
  (forall callee args,
     new_node h (Call h callee args).1 (Call h callee args).2).
Proof.
  split; [intros v; apply insert_alloc_new_node|].
  split; [apply insert_alloc_new_node|].
  split; [apply insert_alloc_new_node|].
  split; [apply insert_alloc_new_node|].
  split; [|split; [|split]]; intros; try apply insert_alloc_new_node.
  unfold Phi.
  destruct (bbvsAsArgs_spec h cs) as (h1 & args & -> & Hsub & _).
  cbn [fst snd new_Value].
  eapply new_node_trans; [exact Hsub|apply insert_alloc_new_node].
Qed.

(** X5. [Load] builds a node with the load operation and the reference
    as its one argument; [Call] builds a node with the call operation
    and, as arguments, the callee followed by the actual arguments in
    order. *)
Theorem Load_Call_arguments (h : gmap N Value) :
  (forall ref,
     (Load h ref).1 !! (Load h ref).2 = Some (mkValue OpLoad [ref] AuxNil)) /\
  (forall callee args,
     (Call h callee args).1 !! (Call h callee args).2
     = Some (mkValue OpCall (callee :: args) AuxNil)).
Proof.
  split; intros; unfold Load, Call; cbn [fst snd];
    rewrite lookup_insert_eq; [done|].
  rewrite (foldl_snoc id). by rewrite list_fmap_id.
Qed.

(** X6. [Phi] builds a node with the phi operation and two arguments
    per candidate, in the order of the candidates: a new internal
    [opBasicBlock] node that carries the candidate's block, then the
    candidate's value. *)
Theorem Phi_arguments (h : gmap N Value) (cs : list BasicBlockValue) :
  exists args,
    (Phi h cs).1 !! (Phi h cs).2 = Some (mkValue OpPhi args AuxNil) /\
    length args = (2 * length cs)%nat /\
    (forall i c, cs !! i = Some c ->
       args !! (2 * i + 1)%nat = Some (Val c) /\
       exists bp,
         args !! (2 * i)%nat = Some bp /\ h !! bp = None /\
         (Phi h cs).1 !! bp
         = Some (mkValue opBasicBlock [] (AuxBlock (Block c)))).
Proof.
  unfold Phi.
  destruct (bbvsAsArgs_spec h cs) as (h1 & args & -> & Hsub & Hlen & Hargs).
  cbn [fst snd new_Value]. exists args.
  split; [by rewrite lookup_insert_eq|]. split; [done|].
  intros i c Hc. destruct (Hargs i c Hc) as (Hv & bp & Hbp & Hf & Hnode).
  split; [done|]. exists bp. split; [done|]. split; [done|].
  rewrite lookup_insert_ne; [done|].
  intros <-. destruct (alloc_fresh h1) as [Hfresh _].
  apply not_elem_of_dom in Hfresh. congruence.
Qed.

(** X7. Symbols are told apart by identity only: two symbols made one
    after the other are distinct pointers to nodes with the same
    content. *)
Theorem symbols_distinct (h : gmap N Value) :
  let '(h1, a) := GlobalSym h in
  let '(h2, b) := GlobalSym h1 in
  a <> b /\ h2 !! a = h2 !! b.
Proof.
  unfold GlobalSym, new_Value.
  destruct (alloc_fresh (<[alloc h := mkValue OpGlobalSym [] AuxNil]> h))
    as [Hf _].
  assert (alloc h <> alloc (<[alloc h := mkValue OpGlobalSym [] AuxNil]> h))
    as Hne.
  { intros E. apply Hf. rewrite <- E, dom_insert_L.
    apply elem_of_union_l, elem_of_singleton. done. }
  split; [done|].
  rewrite lookup_insert_eq, lookup_insert_ne by done.
  by rewrite lookup_insert_eq.
Qed.

(** ** Worklists, continued *)

Lemma swap_length (items : list N) i j :
  length (swap items i j) = length items.
Proof.
  unfold swap. destruct (items !! i), (items !! j); try done.
  by rewrite !length_insert.
Qed.

(** Swapping the two ends. *)
Lemma swap_ends (x y : N) m :
  swap (x :: m ++ [y]) 0 (S (length m)) = y :: m ++ [x].
Proof.
  unfold swap.
  change ((x :: m ++ [y]) !! 0%nat) with (Some x).
  change ((x :: m ++ [y]) !! S (length m)) with ((m ++ [y]) !! length m).
  rewrite list_lookup_middle by done.
  change (<[S (length m) := x]> (<[0%nat := y]> (x :: m ++ [y])))
    with (y :: <[length m := x]> (m ++ [y])).
  rewrite insert_app_r_alt by done.
  by rewrite Nat.sub_diag.
Qed.

(** Swapping inside leaves the two ends. *)
Lemma swap_inside (x y : N) m i j :
  (i < length m)%nat -> (j < length m)%nat ->
  swap (x :: m ++ [y]) (S i) (S j) = x :: swap m i j ++ [y].
Proof.
  intros Hi Hj. unfold swap.
  change ((x :: m ++ [y]) !! S i) with ((m ++ [y]) !! i).
  change ((x :: m ++ [y]) !! S j) with ((m ++ [y]) !! j).
  rewrite !lookup_app_l by done.
  destruct (lookup_lt_is_Some_2 m i Hi) as [a ->].
  destruct (lookup_lt_is_Some_2 m j Hj) as [b ->].
  change (<[S j := a]> (<[S i := b]> (x :: m ++ [y])))
    with (x :: <[j := a]> (<[i := b]> (m ++ [y]))).
  rewrite insert_app_l by done.
  by rewrite insert_app_l by (by rewrite length_insert).
Qed.

Lemma foldl_swap_inside (x y : N) k (idx : list nat) m :
  length m = k -> (forall i, i ∈ idx -> (i < k)%nat) ->
  foldl (fun items i => swap items (S i) (S (S k) - S i - 1)%nat)
        (x :: m ++ [y]) idx
  = x :: foldl (fun items i => swap items i (k - i - 1)%nat) m idx ++ [y].
Proof.
  revert m. induction idx as [|i idx IH]; intros m Hm Hidx; [done|].
  cbn [foldl].
  assert (i < k)%nat as Hi by (apply Hidx, list_elem_of_here).
  replace (S (S k) - S i - 1)%nat with (S (k - i - 1)) by lia.
  rewrite swap_inside by lia.
  apply IH; [by rewrite swap_length|].
  intros j Hj. by apply Hidx, list_elem_of_further.
Qed.

(** The loop of [ReverseTopN] reverses the slice it walks. *)
Lemma swap_loop_reverse (n : nat) (items : list N) :
  length items = n ->
  foldl (fun items i => swap items i (n - i - 1)%nat) items
        (seq 0 (n / 2))
  = reverse items.
Proof.
  revert items. induction n as [n IH] using lt_wf_ind. intros items Hn.
  destruct items as [|x items]; [by subst|].
  destruct (list_snoc_case items) as [->|(m & y & ->)]; [by subst|].
  cbn in Hn. rewrite length_app in Hn. cbn in Hn.
  assert (n = S (S (length m))) as -> by lia.
  replace (S (S (length m)) / 2)%nat with (S (length m / 2)).
  2:{ replace (S (S (length m))) with (length m + 1 * 2)%nat by lia.
      rewrite Nat.div_add by done. lia. }
  cbn [seq foldl].
  replace (S (S (length m)) - 0 - 1)%nat with (S (length m)) by lia.
  rewrite swap_ends, <- fmap_S_seq, foldl_fmap.
  rewrite (foldl_swap_inside y x (length m)); [|done|].
  - rewrite (IH (length m)) by (done || lia).
    by rewrite reverse_cons, reverse_snoc.
  - intros i Hi. apply elem_of_seq in Hi.
    pose proof (Nat.Div0.mul_div_le (length m) 2). lia.
Qed.

Lemma blockLIFO_ReverseTopN_reverse (q : blockLIFO) (n : Z) :
  blockLIFO_ReverseTopN q n
  = if decide (0 <= n <= blockLIFO_Length q)
    then let k := Z.to_nat (blockLIFO_Length q - n) in
         Ok (mkLIFO (take k (LIFO_items q) ++ reverse (drop k (LIFO_items q)))
                    (LIFO_present q))
    else Panic.
Proof.
  unfold blockLIFO_ReverseTopN, blockLIFO_Length.
  destruct (decide (0 <= n <= Z.of_nat (length (LIFO_items q)))) as [Hn|Hn].
  - rewrite decide_True by lia. cbn zeta.
    by rewrite swap_loop_reverse.
  - by rewrite decide_False by lia.
Qed.

(** X11. [ReverseTopN] with [n] between 0 and the length of the stack
    reverses the [n] items on top, leaves the items below and the
    membership set as they are; with any other [n] it panics. *)
Theorem blockLIFO_ReverseTopN_spec (q : blockLIFO) (n : Z) :
  blockLIFO_ReverseTopN q n
  = if decide (0 <= n <= blockLIFO_Length q)
    then let k := Z.to_nat (blockLIFO_Length q - n) in
         Ok (mkLIFO (take k (LIFO_items q) ++ reverse (drop k (LIFO_items q)))
                    (LIFO_present q))
    else Panic.
Proof. apply blockLIFO_ReverseTopN_reverse. Qed.

(** [Next] keeps a stack well formed. *)
Lemma blockLIFO_Next_wf q : LIFO_wf q -> LIFO_wf (blockLIFO_Next q).2.
Proof.
  intros [Hnd Hp]. unfold blockLIFO_Next, blockLIFO_Peek.
  destruct (blockLIFO_Empty q); [by rewrite decide_True by done|].
  destruct (list_snoc_case (LIFO_items q)) as [Hq|(its & x & Hq)].
  { rewrite Hq. cbn. by rewrite decide_True by done. }
  rewrite Hq, last_snoc. cbn [default from_option]. unfold id.
  destruct (decide (x = nil)); [done|]. cbn [snd].
  rewrite removelast_last. rewrite Hq in Hnd.
  apply NoDup_app in Hnd as (Hnd & Hx & _).
  split; [done|]. intros y. cbn [LIFO_items LIFO_present].
  unfold BasicBlockSet_Remove.
  rewrite elem_of_difference, elem_of_singleton, Hp, Hq, elem_of_app,
    list_elem_of_singleton.
  split; [intros [[?|?] ?]; done|]. intros Hy. split; [by left|].
  intros ->. apply (Hx x Hy), list_elem_of_here.
Qed.

(** X8. A stack never holds a block twice and [present] is always the
    set of its items: [Add], [Next] and [ReverseTopN] keep this. *)
Theorem blockLIFO_no_duplicates (q : blockLIFO) :
  LIFO_wf q ->
  (forall x, LIFO_wf (Add q x)) /\
  LIFO_wf (blockLIFO_Next q).2 /\
  (forall n q', blockLIFO_ReverseTopN q n = Ok q' -> LIFO_wf q').
Proof.
  intros Hwf. split; [intros x; by apply blockLIFO_Add_wf|].
  split; [by apply blockLIFO_Next_wf|].
  intros n q'. rewrite blockLIFO_ReverseTopN_reverse.
  case_decide; [|done]. intros [= <-]. destruct Hwf as [Hnd Hp].
  assert (take (Z.to_nat (blockLIFO_Length q - n)) (LIFO_items q)
          ++ reverse (drop (Z.to_nat (blockLIFO_Length q - n)) (LIFO_items q))
          ≡ₚ LIFO_items q) as Hperm.
  { rewrite reverse_Permutation. by rewrite take_drop. }
  split; cbn [LIFO_items LIFO_present].
  - by rewrite Hperm.
  - intros y. by rewrite Hperm.
Qed.

Lemma blockLIFO_no_duplicates_witness :
  LIFO_wf (newBlockLIFO 6) /\
  (forall x, LIFO_wf (Add (newBlockLIFO 6) x)).
Proof.
  split; [apply newBlockLIFO_wf|].
  apply (blockLIFO_no_duplicates (newBlockLIFO 6)), newBlockLIFO_wf.
Defined.

(** X9. Adding a block twice is adding it once, on a stack and on a
    queue, and the block is then a member. *)
Theorem Add_idempotent (x : N) :
  (forall q : blockLIFO,
     Add (Add q x) x = Add q x /\ blockLIFO_Has (Add q x) x = true) /\
  (forall q : blockFIFO,
     Add (Add q x) x = Add q x /\ blockFIFO_Has (Add q x) x = true).
Proof.
  assert (forall s : gset N, bool_decide (x ∈ Add s x) = true) as Hin.
  { intros s. apply bool_decide_eq_true. unfold Add, BasicBlockSet_Add.
    apply elem_of_union_r, elem_of_singleton. done. }
  split; intros q.
  - unfold blockLIFO_Has, Add, blockLIFO_Add, BasicBlockSet_Has.
    destruct (bool_decide (x ∈ LIFO_present q)) eqn:E.
    + by rewrite E.
    + cbn [LIFO_present]. by rewrite Hin.
  - unfold blockFIFO_Has, Add, blockFIFO_Add, BasicBlockSet_Has.
    destruct (bool_decide (x ∈ FIFO_present q)) eqn:E.
    + by rewrite E.
    + cbn [FIFO_present]. by rewrite Hin.
Qed.

Lemma blockLIFO_Next_Add (q : blockLIFO) (x : N) :
  x <> nil -> blockLIFO_Has q x = false ->
  blockLIFO_Next (Add q x) = (x, q).
Proof.
  intros Hx Hq. unfold blockLIFO_Has in Hq.
  unfold Add, blockLIFO_Add. rewrite Hq.
  unfold blockLIFO_Next, blockLIFO_Peek, blockLIFO_Empty.
  cbn [LIFO_items LIFO_present]. rewrite length_app, last_snoc.
  rewrite bool_decide_eq_false_2 by (cbn; lia).
  cbn [default from_option]. unfold id.
  rewrite decide_False by done. rewrite removelast_last.
  destruct q as [items present]. cbn [LIFO_items LIFO_present] in *.
  f_equal. f_equal. unfold BasicBlockSet_Remove, Add, BasicBlockSet_Add.
  apply bool_decide_eq_false in Hq. apply set_eq. intros y.
  rewrite elem_of_difference, elem_of_union, elem_of_singleton.
  split; [tauto|]. intros Hy. split; [by left|]. by intros ->.
Qed.

(** X10. Taking from a stack right after adding a block that is not nil
    and was not in it gives that block back and the stack as it was. *)
Theorem blockLIFO_Add_Next (q : blockLIFO) (x : N) :
  x <> nil -> blockLIFO_Has q x = false ->
  blockLIFO_Next (Add q x) = (x, q).
Proof. apply blockLIFO_Next_Add. Qed.

Lemma blockLIFO_Add_Next_witness :
  entry <> nil /\ blockLIFO_Has (newBlockLIFO 6) entry = false /\
  blockLIFO_Next (Add (newBlockLIFO 6) entry) = (entry, newBlockLIFO 6).
Proof.
  split; [done|]. split; [reflexivity|].
  by apply (blockLIFO_Add_Next (newBlockLIFO 6) entry).
Defined.

(** Adding new distinct blocks to a queue appends them to its chain. *)
Lemma blockFIFO_Add_list (xs : list N) (q : blockFIFO) :
  FIFO_wf q -> NoDup xs -> (forall x, x ∈ xs -> x ∉ FIFO_next q) ->
  foldl Add q xs
  = mkFIFO (FIFO_next q ++ xs) (FIFO_present q ∪ list_to_set xs).
Proof.
  revert q. induction xs as [|x xs IH]; intros q [Hnd Hp] Hxs Hnew.
  - destruct q as [chain present]. cbn. rewrite app_nil_r. f_equal.
    apply set_eq. intros y. rewrite elem_of_union, elem_of_empty. tauto.
  - cbn [foldl]. apply NoDup_cons in Hxs as [Hx Hxs].
    assert (x ∉ FIFO_next q) as Hxq by (apply Hnew, list_elem_of_here).
    assert (Add q x = mkFIFO (FIFO_next q ++ [x]) (FIFO_present q ∪ {[x]}))
      as ->.
    { unfold Add at 1, blockFIFO_Add, BasicBlockSet_Has.
      rewrite bool_decide_eq_false_2; [done|]. by rewrite Hp. }
    rewrite IH; cbn [FIFO_next FIFO_present].
    + rewrite <- app_assoc. f_equal. apply set_eq. intros y.
      rewrite list_to_set_cons, !elem_of_union. tauto.
    + split; cbn [FIFO_next FIFO_present].
      * apply NoDup_app. split; [done|]. split; [|apply NoDup_singleton].
        intros y Hy ->%list_elem_of_singleton. done.
      * intros y. rewrite elem_of_union, elem_of_singleton, elem_of_app,
          list_elem_of_singleton. by rewrite Hp.
    + done.
    + intros y Hy. rewrite elem_of_app, list_elem_of_singleton.
      intros [Hq| ->]; [|done].
      apply (Hnew y); [by apply list_elem_of_further|done].
Qed.

Lemma blockFIFO_drain_all (xs : list N) (present : gset N) :
  NoDup xs -> present = list_to_set xs ->
  blockFIFO_drain (length xs) (mkFIFO xs present) = (xs, newblockFIFO).
Proof.
  revert present. induction xs as [|x xs IH]; intros present Hnd ->.
  - done.
  - apply NoDup_cons in Hnd as [Hx Hnd]. cbn [length blockFIFO_drain].
    unfold blockFIFO_Next. cbn [FIFO_next FIFO_present].
    rewrite (IH _ Hnd); [done|]. unfold BasicBlockSet_Remove.
    apply set_eq. intros y.
    rewrite list_to_set_cons, elem_of_difference, elem_of_union,
      elem_of_singleton, !elem_of_list_to_set.
    split; [tauto|]. intros Hy. split; [by right|]. by intros ->.
Qed.

(** X13. A queue gives blocks back in the order they were added: after
    adding distinct blocks to a new queue, as many calls of [Next] return
    them first to last and leave the queue as new. *)
Theorem blockFIFO_first_in_first_out (xs : list N) :
  NoDup xs ->
  blockFIFO_drain (length xs) (foldl Add newblockFIFO xs)
  = (xs, newblockFIFO).
Proof.
  intros Hnd. rewrite blockFIFO_Add_list; [|split|done|].
  - cbn [FIFO_next FIFO_present newblockFIFO app].
    apply blockFIFO_drain_all; [done|].
    apply set_eq. intros y. rewrite elem_of_union, elem_of_empty. tauto.
  - apply NoDup_nil_2.
  - intros y. cbn. rewrite elem_of_nil. split; [|done].
    apply not_elem_of_empty.
  - intros y _. cbn. apply not_elem_of_nil.
Qed.

Lemma blockFIFO_first_in_first_out_witness :
  NoDup [entry; loopHeader; exit] /\
  blockFIFO_drain 3 (foldl Add newblockFIFO [entry; loopHeader; exit])
  = ([entry; loopHeader; exit], newblockFIFO).
Proof.
  assert (NoDup [entry; loopHeader; exit]) as Hnd.
  { repeat (apply NoDup_cons; split;
              [rewrite ?elem_of_cons, elem_of_nil; intros Hin;
               intuition discriminate|]).
    apply NoDup_nil_2. }
  split; [exact Hnd|].
  apply (blockFIFO_first_in_first_out [entry; loopHeader; exit] Hnd).
Defined.

(** ** Forward data flow, continued *)

(** The analyzer after one iteration is the one that [AnalyzeBlock]
    leaves. *)
Lemma ForwardDataFlow_step_analyzer {A} (impl : BlockAnalyzer A)
    h q a q2 a2 :
  ForwardDataFlow_step h q a = Ok (q2, a2) ->
  exists block, a2 = (AnalyzeBlock a block).1.
Proof.
  unfold ForwardDataFlow_step. destruct (blockLIFO_Next q) as [block q1].
  destruct (AnalyzeBlock a block) as [a1 changed] eqn:Ha.
  intros Hs. exists block. rewrite Ha. cbn [fst].
  destruct changed; [|by injection Hs].
  destruct (AddSuccessors h block q1) as [q'| |]; [|done..].
  cbn in Hs.
  destruct (blockLIFO_ReverseTopN q' _) as [q''| |]; [|done..].
  cbn in Hs. by injection Hs.
Qed.

(** What every call of the analyzer keeps holds when the loop ends. *)
Lemma ForwardDataFlow_loop_invariant {A} (impl : BlockAnalyzer A)
    (P : A -> Prop) fuel h q a r :
  (forall a block, P a -> P (AnalyzeBlock a block).1) ->
  P a -> ForwardDataFlow_loop fuel h q a = Ok r -> P r.
Proof.
  intros Hkeep. revert q a.
  induction fuel as [|fuel IH]; intros q a Ha; [done|].
  cbn [ForwardDataFlow_loop]. destruct (blockLIFO_Empty q).
  { by intros [= <-]. }
  destruct (ForwardDataFlow_step h q a) as [[q2 a2]| |] eqn:Hs; [|done..].
  cbn [mbind result_bind fst snd].
  apply ForwardDataFlow_step_analyzer in Hs as [block ->].
  apply IH. by apply Hkeep.
Qed.

(** X14. When the analyzer reports no change for the start block, it is
    called once and [ForwardDataFlow] returns without looking at the
    successors: the start block need not even have a terminator. *)
Theorem ForwardDataFlow_unchanged_start {A} (impl : BlockAnalyzer A)
    (h : gmap N BasicBlock) (start : N) (a a' : A) (k : nat) :
  start <> nil ->
  AnalyzeBlock a start = (a', false) ->
  ForwardDataFlow (2 + k) h start a = Ok a'.
Proof.
  intros Hs Ha. unfold ForwardDataFlow.
  change (2 + k)%nat with (S (S k)). cbn [ForwardDataFlow_loop].
  assert (blockLIFO_Next (Add (newBlockLIFO 6) start)
          = (start, newBlockLIFO 6)) as HN
    by by apply blockLIFO_Next_Add.
  assert (blockLIFO_Empty (Add (newBlockLIFO 6) start) = false) as ->
    by done.
  unfold ForwardDataFlow_step. rewrite HN, Ha. cbn.
  done.
Qed.

Lemma ForwardDataFlow_unchanged_start_witness :
  loopHeader <> nil /\
  AnalyzeBlock (mkLogging ∅ []) loopHeader
  = (mkLogging ∅ [loopHeader], false) /\
  ForwardDataFlow 2 open_graph loopHeader (mkLogging ∅ [])
  = Ok (mkLogging ∅ [loopHeader]).
Proof.
  split; [done|]. split; [reflexivity|].
  by apply (ForwardDataFlow_unchanged_start _ open_graph loopHeader
              (mkLogging ∅ []) (mkLogging ∅ [loopHeader]) 0).
Defined.

(** X12. A nil block cannot be taken off a stack: [Next] returns nil
    for it as for an empty stack and leaves it on top.  So
    [ForwardDataFlow] started on nil, with an analyzer that keeps
    reporting no change for nil, never ends. *)
Theorem ForwardDataFlow_nil_start {A} (impl : BlockAnalyzer A)
    (P : A -> Prop) (h : gmap N BasicBlock) (a : A) (fuel : nat) :
  P a ->
  (forall a, P a -> (AnalyzeBlock a nil).2 = false /\
                    P (AnalyzeBlock a nil).1) ->
  blockLIFO_Next (Add (newBlockLIFO 6) nil)
  = (nil, Add (newBlockLIFO 6) nil) /\
  ForwardDataFlow fuel h nil a = OutOfFuel.
Proof.
  intros Ha Hkeep. split; [reflexivity|]. unfold ForwardDataFlow.
  revert a Ha. induction fuel as [|fuel IH]; intros a Ha; [done|].
  cbn [ForwardDataFlow_loop].
  change (blockLIFO_Empty (Add (newBlockLIFO 6) nil)) with false.
  unfold ForwardDataFlow_step.
  change (blockLIFO_Next (Add (newBlockLIFO 6) nil))
    with (nil, Add (newBlockLIFO 6) nil).
  destruct (Hkeep a Ha) as [Hch HP].
  destruct (AnalyzeBlock a nil) as [a1 changed]. cbn [fst snd] in *.
  subst changed. cbn [mbind result_bind fst snd]. by apply IH.
Qed.

Lemma ForwardDataFlow_nil_start_witness :
  ForwardDataFlow 100 loop_graph nil (mkLogging ∅ []) = OutOfFuel.
Proof.
  apply (ForwardDataFlow_nil_start _ (fun a => changeCount a = ∅)
           loop_graph (mkLogging ∅ []) 100).
  - reflexivity.
  - intros a Ha. unfold AnalyzeBlock, loggingBlockAnalyzer_AnalyzeBlock.
    rewrite Ha, lookup_empty. cbn. done.
Defined.

(** ** Dominators, continued *)

(** The loop over the predecessors touches the entry of the visited
    block only, and does not remove it. *)
Lemma dominators_join_frame block (ps : list N) t first t' first' :
  foldl (dominators_join block) (t, first) ps = (t', first') ->
  (forall b, b <> block -> t' !! b = t !! b) /\
  (is_Some (t !! block) -> is_Some (t' !! block)).
Proof.
  revert t first. induction ps as [|p ps IH]; intros t first.
  { by intros [= <- <-]. }
  cbn [foldl]. unfold dominators_join at 2.
  destruct (t !! p) as [pd|]; [|apply IH].
  destruct first; intros Hf; apply IH in Hf as [Hne Hb]; split.
  - intros b Hbne. by rewrite Hne, lookup_alter_ne.
  - intros Hs. apply Hb. rewrite lookup_alter_eq. by apply fmap_is_Some.
  - intros b Hbne. by rewrite Hne, lookup_alter_ne.
  - intros Hs. apply Hb. rewrite lookup_alter_eq. by apply fmap_is_Some.
Qed.

Lemma dominators_update_frame (ps : list N) t block t' changed :
  dominators_update ps t block = (t', changed) ->
  (forall b, b <> block -> t' !! b = t !! b) /\
  (exists s, t' !! block = Some s /\ block ∈ s).
Proof.
  unfold dominators_update.
  set (t0 := match t !! block with
             | Some _ => t
             | None => <[block := ∅]> t
             end).
  assert (is_Some (t0 !! block)) as Hs0.
  { unfold t0. destruct (t !! block) eqn:E; [by rewrite E|].
    rewrite lookup_insert_eq. by eexists. }
  assert (forall b, b <> block -> t0 !! b = t !! b) as Hne0.
  { intros b Hb. unfold t0. destruct (t !! block); [done|].
    by rewrite lookup_insert_ne. }
  destruct (foldl (dominators_join block) (t0, true) ps) as [t1 f1] eqn:Hf.
  apply dominators_join_frame in Hf as [Hne Hs]. intros [= <- _]. split.
  - intros b Hb. by rewrite lookup_alter_ne, Hne, Hne0.
  - destruct (Hs Hs0) as [s Hs1]. exists (Add s block).
    rewrite lookup_alter_eq, Hs1. split; [done|].
    unfold Add, BasicBlockSet_Add. apply elem_of_union_r, elem_of_singleton.
    done.
Qed.

(** X16. A call of the dominators analyzer changes the entry of the
    visited block only, leaves the predecessors as they are, and leaves
    the block a member of its own set. *)
Theorem AnalyzeBlock_frame (ord : RangeOrder) (a : dominatorsAnalyzer)
    (block : N) :
  let a' :=
    (AnalyzeBlock (BlockAnalyzer := dominatorsAnalyzer_AnalyzeBlock ord)
       a block).1 in
  preds a' = preds a /\
  (forall b, b <> block -> t a' !! b = t a !! b) /\
  (exists s, t a' !! block = Some s /\ block ∈ s).
Proof.
  unfold AnalyzeBlock, dominatorsAnalyzer_AnalyzeBlock.
  destruct (dominators_update _ (t a) block) as [t' changed] eqn:Hu.
  cbn [fst t preds]. split; [done|].
  by apply dominators_update_frame in Hu.
Qed.

(** X15. In the table that [FindDominators] returns every set has its
    own key as a member: every block dominates itself. *)
Theorem FindDominators_self_dominated (ord : RangeOrder) (fuel : nat)
    (h : gmap N BasicBlock) (start : N) (pr doms : gmap N (gset N)) :
  FindDominators ord fuel h start pr = Ok doms ->
  self_dominated doms.
Proof.
  unfold FindDominators, ForwardDataFlow.
  destruct (ForwardDataFlow_loop fuel _ _ _) as [a| |] eqn:Hrun; [|done..].
  intros [= <-].
  eapply (ForwardDataFlow_loop_invariant _
            (fun a => self_dominated (t a))) in Hrun; [done| |].
  - intros a0 block Ha0 b s Hb.
    unfold AnalyzeBlock, dominatorsAnalyzer_AnalyzeBlock in Hb.
    destruct (dominators_update _ (t a0) block) as [t' changed] eqn:Hu.
    cbn [fst t] in Hb.
    apply dominators_update_frame in Hu as [Hne (s' & Hs' & Hin)].
    destruct (decide (b = block)) as [->|Hbne]; [congruence|].
    apply (Ha0 b). by rewrite <- Hne.
  - intros b s Hb. cbn [t] in Hb. by rewrite lookup_empty in Hb.
Qed.

Lemma FindDominators_self_dominated_witness :
  FindDominators elements_order 6 loop_graph entry loop_preds
  = Ok loop_doms /\
  self_dominated loop_doms.
Proof.
  assert (FindDominators elements_order 6 loop_graph entry loop_preds
          = Ok loop_doms) as Hrun by (vm_compute; reflexivity).
  split; [exact Hrun|].
  exact (FindDominators_self_dominated _ _ _ _ _ _ Hrun).
Defined.

(** The loop over the predecessors once a first initialised one has been
    met: the set of a block that is not its own predecessor is
    intersected with the sets of the initialised predecessors. *)
Lemma dominators_join_rest block (t : gmap N (gset N)) (ps : list N)
    (s : gset N) :
  block ∉ ps ->
  exists s',
    foldl (dominators_join block) (<[block := s]> t, false) ps
    = (<[block := s']> t, false) /\
    (forall x, x ∈ s' <->
       x ∈ s /\ forall p pd, p ∈ ps -> t !! p = Some pd -> x ∈ pd).
Proof.
  revert s. induction ps as [|p ps IH]; intros s Hb.
  { exists s. split; [done|]. intros x. split; [|tauto].
    intros Hx. split; [done|]. intros p pd Hp. by apply elem_of_nil in Hp. }
  apply not_elem_of_cons in Hb as [Hne Hb]. cbn [foldl].
  unfold dominators_join at 2. rewrite lookup_insert_ne by done.
  destruct (t !! p) as [pd|] eqn:Hp.
  - rewrite alter_insert_eq. unfold retain.
    rewrite (retain_in_order _ pd s) by done.
    destruct (IH (s ∩ pd) Hb) as (s' & -> & Hs'). exists s'.
    split; [done|]. intros x. rewrite Hs', elem_of_intersection. split.
    + intros [[Hx Hpd] Hall]. split; [done|]. intros p' pd'.
      rewrite elem_of_cons. intros [->|Hin] Hp'; [congruence|by eapply Hall].
    + intros [Hx Hall]. split; [split; [done|]|].
      * apply (Hall p); [apply list_elem_of_here|done].
      * intros p' pd' Hin. apply Hall. by apply list_elem_of_further.
  - destruct (IH s Hb) as (s' & -> & Hs'). exists s'.
    split; [done|]. intros x. rewrite Hs'. split.
    + intros [Hx Hall]. split; [done|]. intros p' pd'.
      rewrite elem_of_cons. intros [->|Hin] Hp'; [congruence|by eapply Hall].
    + intros [Hx Hall]. split; [done|]. intros p' pd' Hin.
      apply Hall. by apply list_elem_of_further.
Qed.

(** The whole loop, from the empty set of a first visit. *)
Lemma dominators_join_first block (t : gmap N (gset N)) (ps : list N) :
  block ∉ ps ->
  exists s' first,
    foldl (dominators_join block) (<[block := ∅]> t, true) ps
    = (<[block := s']> t, first) /\
    (forall x, x ∈ s' <->
       (exists p pd, p ∈ ps /\ t !! p = Some pd) /\
       forall p pd, p ∈ ps -> t !! p = Some pd -> x ∈ pd).
Proof.
  induction ps as [|p ps IH]; intros Hb.
  { exists ∅, true. split; [done|]. intros x. split.
    - intros Hx. by apply not_elem_of_empty in Hx.
    - intros [(p & pd & Hp & _) _]. by apply elem_of_nil in Hp. }
  apply not_elem_of_cons in Hb as [Hne Hb]. cbn [foldl].
  unfold dominators_join at 2. rewrite lookup_insert_ne by done.
  destruct (t !! p) as [pd|] eqn:Hp.
  - rewrite alter_insert_eq, (AddBlocksTo_order _ pd ∅) by done.
    destruct (dominators_join_rest block t ps (∅ ∪ pd) Hb)
      as (s' & -> & Hs'). exists s', false.
    split; [done|]. intros x. rewrite Hs', elem_of_union. split.
    + intros [[Hx|Hx] Hall]; [by apply not_elem_of_empty in Hx|].
      split; [exists p, pd; split; [apply list_elem_of_here|done]|].
      intros p' pd'. rewrite elem_of_cons.
      intros [->|Hin] Hp'; [congruence|by eapply Hall].
    + intros [_ Hall]. split.
      * right. apply (Hall p); [apply list_elem_of_here|done].
      * intros p' pd' Hin. apply Hall. by apply list_elem_of_further.
  - destruct (IH Hb) as (s' & first & -> & Hs'). exists s', first.
    split; [done|]. intros x. rewrite Hs'. split.
    + intros [(p' & pd' & Hin & Hp') Hall]. split.
      * exists p', pd'. split; [by apply list_elem_of_further|done].
      * intros p'' pd''. rewrite elem_of_cons.
        intros [->|Hin'] Hp''; [congruence|by eapply Hall].
    + intros [(p' & pd' & Hin & Hp') Hall]. split.
      * exists p', pd'. split; [|done].
        apply elem_of_cons in Hin as [->|Hin]; [congruence|done].
      * intros p'' pd'' Hin'. apply Hall. by apply list_elem_of_further.
Qed.

(** X18. The first visit of a block that is not its own predecessor
    gives it, in every enumeration order, the block itself and whatever
    is in the sets of all its initialised predecessors (nothing else, and
    the block alone if no predecessor is initialised), and reports a
    change. *)
Theorem dominators_first_visit (ps : list N) (t : gmap N (gset N))
    (block : N) :
  t !! block = None -> block ∉ ps ->
  exists t',
    dominators_update ps t block = (t', true) /\
    (forall x, x ∈ table_get t' block <->
       x = block \/
       ((exists p pd, p ∈ ps /\ t !! p = Some pd) /\
        forall p pd, p ∈ ps -> t !! p = Some pd -> x ∈ pd)).
Proof.
  intros Ht Hb. unfold dominators_update. rewrite Ht.
  destruct (dominators_join_first block t ps Hb) as (s' & first & -> & Hs').
  rewrite alter_insert_eq. unfold table_get.
  rewrite !lookup_insert_eq. cbn [default from_option]. unfold id.
  eexists. split.
  - f_equal. rewrite size_empty. apply negb_true_iff, Nat.eqb_neq.
    apply size_non_empty_iff. intros Hempty.
    apply (not_elem_of_empty (C := gset N) block). rewrite <- Hempty.
    unfold Add, BasicBlockSet_Add. apply elem_of_union_r, elem_of_singleton.
    done.
  - intros x. rewrite lookup_insert_eq. cbn [from_option].
    unfold Add, BasicBlockSet_Add.
    rewrite elem_of_union, elem_of_singleton, Hs'. tauto.
Qed.

Lemma dominators_first_visit_witness :
  exists t',
    dominators_update [entry; loopBody] {[entry := {[entry]}]} loopHeader
    = (t', true) /\
    table_get t' loopHeader = {[entry; loopHeader]}.
Proof.
  destruct (dominators_first_visit [entry; loopBody]
              {[entry := {[entry]}]} loopHeader) as (t' & Hrun & _).
  - reflexivity.
  - rewrite !elem_of_cons, elem_of_nil. intros Hin. intuition discriminate.
  - exists t'. split; [exact Hrun|].
    vm_compute in Hrun. injection Hrun as <-. vm_compute. reflexivity.
Defined.

(** X17. The table that [FindDominators] returns can depend on the order
    in which Go enumerates a predecessor set.  On the graph entry ->
    loopHeader, loopHeader -> (loopHeader | exit), with the predecessors
    that [FindPredecessors] finds, loopHeader gets {loopHeader} when it
    is enumerated before entry among its own predecessors, and
    {entry, loopHeader} when it is enumerated after. *)
Theorem FindDominators_depends_on_order :
  FindPredecessors 4 self_loop_graph entry = Ok self_loop_preds /\
  range_order_ok elements_order /\
  range_order_ok reversed_order /\
  FindDominators elements_order 6 self_loop_graph entry self_loop_preds
  = Ok self_loop_doms_self_first /\
  FindDominators reversed_order 6 self_loop_graph entry self_loop_preds
  = Ok self_loop_doms_entry_first /\
  self_loop_doms_self_first <> self_loop_doms_entry_first.
Proof.
  split; [vm_compute; reflexivity|].
  split; [intros n s; reflexivity|].
  split; [intros n s; apply reverse_Permutation|].
  split; [vm_compute; reflexivity|].
  split; [vm_compute; reflexivity|].
  intros Heq.
  assert (self_loop_doms_self_first !! loopHeader
          = self_loop_doms_entry_first !! loopHeader) as Hl by by rewrite Heq.
  vm_compute in Hl. discriminate Hl.
Qed.

(** ** Reachable blocks, continued *)

(** Appending the successors to a slice is appending what is appended to
    the nil slice. *)
Lemma AppendSuccessors_app (t : Terminator) (to : list N) :
  AppendSuccessors t to = (l ← AppendSuccessors t []; Ok (to ++ l)).
Proof.
  unfold AppendSuccessors.
  destruct (Terminator_op t =? OpJump).
  { destruct (index (Terminator_args t) 0); done. }
  destruct (Terminator_op t =? OpBranch).
  { destruct (index (Terminator_args t) 0); [|done..]. cbn.
    destruct (index (Terminator_args t) 1); done. }
  destruct (Terminator_op t =? OpSwitch).
  { cbn. by rewrite !foldl_snoc. }
  destruct ((Terminator_op t =? OpReturn)
            || (Terminator_op t =? OpUnreachable)).
  { cbn. by rewrite app_nil_r. }
  destruct ((Terminator_op t =? OpYield) || (Terminator_op t =? OpAwait)).
  { destruct (index (Terminator_args t) 0); done. }
  by destruct (Op_Terminator (Terminator_op t)).
Qed.

Lemma size_list_to_set_le (l : list N) :
  (size (list_to_set l : gset N) <= length l)%nat.
Proof.
  induction l as [|x l IH]; [by rewrite list_to_set_nil, size_empty|].
  rewrite list_to_set_cons, size_union_alt, size_singleton. cbn [length].
  pose proof (subseteq_size (list_to_set l ∖ {[x]}) (list_to_set l : gset N))
    as Hsub.
  assert (list_to_set l ∖ {[x]} ⊆ (list_to_set l : gset N)) as Hd.
  { intros y. rewrite elem_of_difference. tauto. }
  specialize (Hsub Hd). lia.
Qed.

(** The loop of [AddReachable] once the receiver [b] is in the set: the
    worklist holds successors of [b] only, and each of them is in the
    set or still in the worklist. *)
Lemma AddReachable_loop_direct h b (l : list N) (to0 : gset N) fuel todo to :
  successors h b = Ok l ->
  b ∈ to -> to0 ⊆ to -> to ⊆ to0 ∪ {[b]} ∪ list_to_set l ->
  (forall x, x ∈ l -> x ∈ to \/ x ∈ todo) ->
  (forall x, x ∈ todo -> x ∈ l) ->
  (length todo + length l * size (list_to_set l ∖ to) < fuel)%nat ->
  AddReachable_loop fuel h b todo to = Ok (to0 ∪ {[b]} ∪ list_to_set l).
Proof.
  intros Hl. revert todo to.
  induction fuel as [|fuel IH]; intros todo to Hb H0 Hfin Hcov Htodo Hfuel;
    [lia|].
  cbn [AddReachable_loop].
  destruct (list_snoc_case todo) as [->|(todo' & x & ->)].
  - cbn. f_equal. apply set_eq. intros y. split; [apply Hfin|].
    rewrite !elem_of_union, elem_of_singleton, elem_of_list_to_set.
    intros [[?| ->]|Hy]; [by apply H0|done|].
    destruct (Hcov y Hy) as [?|Hn]; [done|]. by apply elem_of_nil in Hn.
  - rewrite last_snoc, removelast_last. rewrite length_app in Hfuel.
    cbn [length] in Hfuel. unfold BasicBlockSet_Has.
    assert (x ∈ l) as Hxl.
    { apply Htodo, elem_of_app. right. apply list_elem_of_here. }
    case_bool_decide as Hx.
    + apply IH; try done.
      * intros y Hy. destruct (Hcov y Hy) as [?|Hin]; [by left|].
        apply elem_of_app in Hin as [?|Hin]; [by right|].
        apply list_elem_of_singleton in Hin as ->. by left.
      * intros y Hy. apply Htodo, elem_of_app. by left.
      * lia.
    + unfold successors in Hl.
      destruct (deref h b) as [bb| |]; [|done..]. cbn in Hl |- *.
      destruct (Term bb) as [tm|]; [|done].
      rewrite AppendSuccessors_app, Hl. cbn [mbind result_bind].
      assert (size (list_to_set l ∖ to)
              = S (size (list_to_set l ∖ Add to x))) as Hsize.
      { unfold Add, BasicBlockSet_Add.
        assert ((list_to_set l ∖ to : gset N)
                = {[x]} ∪ list_to_set l ∖ (to ∪ {[x]})) as ->.
        { apply set_eq. intros y.
          rewrite elem_of_union, !elem_of_difference, elem_of_union,
            elem_of_singleton, elem_of_list_to_set.
          split; [|intros [->|[? ?]]; tauto].
          intros [? ?]. destruct (decide (y = x)); tauto. }
        rewrite size_union, size_singleton; [done|].
        apply disjoint_singleton_l. rewrite elem_of_difference,
          elem_of_union, elem_of_singleton. tauto. }
      apply IH.
      * unfold Add, BasicBlockSet_Add. by apply elem_of_union_l.
      * unfold Add, BasicBlockSet_Add. intros y Hy.
        by apply elem_of_union_l, H0.
      * unfold Add, BasicBlockSet_Add. intros y.
        rewrite elem_of_union, elem_of_singleton. intros [Hy| ->].
        -- by apply Hfin.
        -- by apply elem_of_union_r, elem_of_list_to_set.
      * intros y Hy. right. apply elem_of_app. by right.
      * intros y [Hy|Hy]%elem_of_app; [|done].
        apply Htodo, elem_of_app. by left.
      * rewrite length_app. rewrite Hsize in Hfuel. lia.
Qed.

(** X19. [AddReachable] takes the successors of the receiver each time
    it adds a block.  So, when the receiver has successors to give, it
    terminates, and it adds to the set the receiver and its direct
    successors only; when the receiver is already in the set it adds
    nothing. *)
Theorem AddReachable_direct (h : gmap N BasicBlock) (b : N) (l : list N)
    (to : gset N) (k : nat) :
  successors h b = Ok l ->
  AddReachable (2 + length l * S (length l) + k) h b to
  = Ok (if decide (b ∈ to) then to else to ∪ {[b]} ∪ list_to_set l).
Proof.
  intros Hl. apply AddReachable_loop_fuel. unfold AddReachable.
  change (2 + length l * S (length l))%nat
    with (S (S (length l * S (length l)))).
  remember (S (length l * S (length l))) as fuel eqn:Hfuel.
  cbn [AddReachable_loop app last removelast]. unfold BasicBlockSet_Has.
  destruct (decide (b ∈ to)) as [Hb|Hb].
  { rewrite bool_decide_eq_true_2 by done. by subst fuel. }
  rewrite bool_decide_eq_false_2 by done.
  pose proof Hl as Hl'. unfold successors in Hl'.
  destruct (deref h b) as [bb| |]; [|done..]. cbn in Hl' |- *.
  destruct (Term bb) as [tm|]; [|done].
  rewrite Hl'. cbn [mbind result_bind].
  apply (AddReachable_loop_direct h b l to); try done.
  - unfold Add, BasicBlockSet_Add. apply elem_of_union_r, elem_of_singleton.
    done.
  - unfold Add, BasicBlockSet_Add. intros y. apply elem_of_union_l.
  - unfold Add, BasicBlockSet_Add. intros y Hy. by apply elem_of_union_l.
  - intros y Hy. by right.
  - pose proof (size_list_to_set_le l) as Hle.
    pose proof (subseteq_size (list_to_set l ∖ Add to b)
                  (list_to_set l : gset N)) as Hsub.
    assert (list_to_set l ∖ Add to b ⊆ (list_to_set l : gset N)) as Hd.
    { intros y. rewrite elem_of_difference. tauto. }
    specialize (Hsub Hd). nia.
Qed.

Lemma AddReachable_direct_witness :
  successors chain_graph entry = Ok [loopHeader] /\
  AddReachable 4 chain_graph entry ∅
  = Ok (if decide (entry ∈ (∅ : gset N)) then ∅
        else ∅ ∪ {[entry]} ∪ list_to_set [loopHeader]).
Proof.
  split; [reflexivity|].
  exact (AddReachable_direct chain_graph entry [loopHeader] ∅ 0 eq_refl).
Defined.

(** ** Loop bodies *)

Lemma elem_of_table_blocks (t : gmap N (gset N)) y :
  y ∈ table_blocks t <-> exists b, y ∈ table_get t b.
Proof.
  unfold table_blocks, table_get. rewrite elem_of_union_list. split.
  - intros (X & HX & Hy). apply list_elem_of_fmap in HX as ([b s] & -> & Hbs).
    apply elem_of_map_to_list in Hbs. exists b. by rewrite Hbs.
  - intros (b & Hy). destruct (t !! b) as [s|] eqn:Hb.
    + exists s. split; [|done]. apply list_elem_of_fmap. exists (b, s).
      split; [done|]. by apply elem_of_map_to_list.
    + by apply not_elem_of_empty in Hy.
Qed.

Lemma foldl_Add_items (ps : list N) (q : blockLIFO) :
  LIFO_wf q ->
  LIFO_wf (foldl Add q ps) /\
  (forall x, x ∈ LIFO_items (foldl Add q ps)
             <-> x ∈ LIFO_items q \/ x ∈ ps).
Proof.
  revert q. induction ps as [|p ps IH]; intros q Hwf.
  { split; [done|]. intros x. rewrite elem_of_nil. tauto. }
  cbn [foldl]. destruct (IH (Add q p) (blockLIFO_Add_wf q p Hwf)) as [Hwf' Hi].
  split; [done|]. intros x.
  rewrite Hi, blockLIFO_Add_items, elem_of_cons by done. tauto.
Qed.

Lemma NoDup_length_le_size (items : list N) (blocks : gset N) :
  NoDup items -> (forall x, x ∈ items -> x ∈ blocks) ->
  (length items <= size blocks)%nat.
Proof.
  intros Hnd Hsub. rewrite <- (size_list_to_set (C := gset N)) by done.
  apply subseteq_size. intros x Hx. apply Hsub.
  by apply elem_of_list_to_set in Hx.
Qed.

Section FindBody_correct.

Variable ord : RangeOrder.
Variable preds : gmap N (gset N).
Variable head tail : N.

Hypothesis ord_ok : range_order_ok ord.
Hypothesis tail_not_nil : tail <> nil.
Hypothesis preds_not_nil : nil ∉ table_blocks preds.

(** Whatever is met walking backwards from the tail is the tail or a
    block of the table. *)
Lemma body_step_blocks x :
  rtc (body_step preds head) tail x -> x ∈ {[tail]} ∪ table_blocks preds.
Proof.
  intros Hx. apply rtc_inv_r in Hx as [<-|(y & _ & _ & Hy)].
  - by apply elem_of_union_l, elem_of_singleton.
  - apply elem_of_union_r, elem_of_table_blocks. by exists y.
Qed.

Lemma body_step_not_nil x :
  rtc (body_step preds head) tail x -> x <> nil.
Proof.
  intros Hx%body_step_blocks ->.
  apply elem_of_union in Hx as [Hx%elem_of_singleton|Hx]; [by subst|done].
Qed.

Lemma FindBody_inv_init :
  FindBody_inv preds head tail (NewBasicBlockSet [head])
    (Add (newBlockLIFO 4) tail).
Proof.
  pose proof (newBlockLIFO_wf 4) as Hwf0.
  assert (forall x, x ∈ LIFO_items (Add (newBlockLIFO 4) tail) <-> x = tail)
    as Hitems.
  { intros x. rewrite blockLIFO_Add_items by done. cbn.
    rewrite elem_of_nil. tauto. }
  assert (forall x, x ∈ NewBasicBlockSet [head] <-> x = head) as Hret.
  { intros x. unfold NewBasicBlockSet. cbn.
    unfold Add, BasicBlockSet_Add.
    rewrite elem_of_union, elem_of_singleton, elem_of_empty. tauto. }
  split; [by apply blockLIFO_Add_wf|].
  split; [by apply Hret|].
  split; [intros x Hx; left; by apply Hret|].
  split; [intros x ->%Hitems; apply rtc_refl|].
  split; [right; by apply Hitems|].
  intros x y ->%Hret [Hne _]. done.
Qed.

(** When the worklist is empty the body is the head and what the walk
    backwards from the tail meets. *)
Lemma FindBody_inv_done ret q x :
  FindBody_inv preds head tail ret q -> blockLIFO_Empty q = true ->
  x ∈ ret <-> x = head \/ rtc (body_step preds head) tail x.
Proof.
  intros (_ & Hh & Hret & _ & Htail & Hclosed) HE.
  assert (LIFO_items q = []) as Hq.
  { apply nil_length_inv. unfold blockLIFO_Empty in HE.
    by apply bool_decide_eq_true in HE. }
  rewrite Hq in *. split; [apply Hret|]. intros [->|Hx]; [done|].
  revert x Hx. apply (rtc_ind_r (fun x => x ∈ ret)).
  - destruct Htail as [?|Ht]; [done|]. by apply elem_of_nil in Ht.
  - intros y z _ Hyz Hy. destruct (Hclosed y z Hy Hyz) as [?|Hz]; [done|].
    by apply elem_of_nil in Hz.
Qed.

Lemma FindBody_loop_spec fuel ret q tick :
  FindBody_inv preds head tail ret q ->
  (size (({[tail]} ∪ table_blocks preds) ∖ ret)
   * S (size ({[tail]} ∪ table_blocks preds))
   + length (LIFO_items q) < fuel)%nat ->
  exists body,
    FindBody_loop ord fuel preds ret q tick = Ok body /\
    forall x, x ∈ body <-> x = head \/ rtc (body_step preds head) tail x.
Proof.
  set (V := {[tail]} ∪ table_blocks preds).
  revert ret q tick.
  induction fuel as [|fuel IH]; intros ret q tick Hinv Hfuel; [lia|].
  cbn [FindBody_loop]. destruct (blockLIFO_Empty q) eqn:HE.
  { exists ret. split; [done|]. intros x. by eapply FindBody_inv_done. }
  pose proof Hinv as (Hwf & Hh & Hret & Hq & Htail & Hclosed).
  assert (nil ∉ LIFO_items q) as Hnil.
  { intros Hn. by apply (body_step_not_nil nil); [apply Hq|]. }
  destruct (blockLIFO_Next_pop q Hwf HE Hnil)
    as (its & x & q1 & Hitems & Hxi & -> & Hq1 & Hwf1).
  assert (forall y, y ∈ LIFO_items q <-> y ∈ its \/ y = x) as Hits.
  { intros y. by rewrite Hitems, elem_of_app, list_elem_of_singleton. }
  assert (rtc (body_step preds head) tail x) as Hx
    by (apply Hq, Hits; by right).
  rewrite Hitems, length_app in Hfuel. cbn [length] in Hfuel.
  unfold BasicBlockSet_Has. case_bool_decide as Hxr; cbn [negb].
  - apply IH; [|rewrite Hq1; lia].
    split; [done|]. split; [done|]. split; [done|]. rewrite Hq1.
    split; [intros y Hy; apply Hq, Hits; by left|]. split.
    + destruct Htail as [?|[?| ->]%Hits]; [by left|by right|by left].
    + intros y z Hy Hyz.
      destruct (Hclosed y z Hy Hyz) as [?|[?| ->]%Hits];
        [by left|by right|by left].
  - assert (x <> head) as Hxh by (by intros ->).
    destruct (foldl_Add_items (ord tick (table_get preds x)) q1 Hwf1)
      as [Hwf2 Hq2].
    assert (forall y, y ∈ LIFO_items
                            (foldl Add q1 (ord tick (table_get preds x)))
                      <-> y ∈ its \/ y ∈ table_get preds x) as Hits2.
    { intros y. by rewrite Hq2, Hq1, (ord_ok tick), elem_of_elements. }
    assert (forall y, y ∈ Add ret x <-> y ∈ ret \/ y = x) as Hadd.
    { intros y. unfold Add, BasicBlockSet_Add.
      by rewrite elem_of_union, elem_of_singleton. }
    assert (forall y, y ∈ LIFO_items
                            (foldl Add q1 (ord tick (table_get preds x)))
                      -> rtc (body_step preds head) tail y) as Hreach2.
    { intros y [Hy|Hy]%Hits2.
      - apply Hq, Hits. by left.
      - eapply rtc_r; [exact Hx|]. by split. }
    apply IH.
    + split; [done|]. split; [apply Hadd; by left|].
      split; [intros y [Hy| ->]%Hadd; [by apply Hret|by right]|].
      split; [done|]. split.
      * destruct Htail as [?|[?| ->]%Hits].
        -- left. apply Hadd. by left.
        -- right. apply Hits2. by left.
        -- left. apply Hadd. by right.
      * intros y z [Hy| ->]%Hadd Hyz.
        -- destruct (Hclosed y z Hy Hyz) as [?|[?| ->]%Hits].
           ++ left. apply Hadd. by left.
           ++ right. apply Hits2. by left.
           ++ left. apply Hadd. by right.
        -- right. apply Hits2. right. by destruct Hyz.
    + assert (size (V ∖ ret) = S (size (V ∖ Add ret x))) as Hsize.
      { assert (V ∖ ret = {[x]} ∪ V ∖ Add ret x) as ->.
        { apply set_eq. intros y.
          rewrite elem_of_union, !elem_of_difference, Hadd,
            elem_of_singleton.
          split; [|intros [->|[? ?]]; [|tauto]].
          - intros [? ?]. destruct (decide (y = x)); tauto.
          - split; [by apply body_step_blocks|done]. }
        rewrite size_union, size_singleton; [done|].
        apply disjoint_singleton_l. rewrite elem_of_difference, Hadd.
        tauto. }
      assert (length (LIFO_items
                        (foldl Add q1 (ord tick (table_get preds x))))
              <= size V)%nat as Hlen.
      { apply NoDup_length_le_size; [apply Hwf2|].
        intros y Hy. by apply body_step_blocks, Hreach2. }
      fold V in Hfuel. rewrite Hsize in Hfuel. fold V. nia.
Qed.

(** X20. [FindBody] terminates, and the body it returns holds the head
    and the blocks met walking backwards along predecessor edges from the
    tail without walking on from the head, and nothing else, whatever
    order the predecessor sets are enumerated in.  (The tail and the
    members of the predecessor sets must not be nil.) *)
Theorem FindBody_backward_closure (fuel : nat) :
  (size ({[tail]} ∪ table_blocks preds)
   * S (size ({[tail]} ∪ table_blocks preds)) + 1 < fuel)%nat ->
  exists body,
    FindBody ord fuel (mkLoop head tail) preds = Ok body /\
    forall x, x ∈ body <-> x = head \/ rtc (body_step preds head) tail x.
Proof.
  intros Hfuel. unfold FindBody. cbn [Head Tail].
  apply FindBody_loop_spec; [apply FindBody_inv_init|].
  assert (length (LIFO_items (Add (newBlockLIFO 4) tail)) = 1%nat) as ->
    by done.
  pose proof (subseteq_size
                (({[tail]} ∪ table_blocks preds) ∖ NewBasicBlockSet [head])
                ({[tail]} ∪ table_blocks preds)) as Hsub.
  assert (({[tail]} ∪ table_blocks preds) ∖ NewBasicBlockSet [head]
          ⊆ {[tail]} ∪ table_blocks preds) as Hd.
  { intros y. rewrite elem_of_difference. tauto. }
  specialize (Hsub Hd). nia.
Qed.

End FindBody_correct.

Lemma FindBody_backward_closure_witness :
  range_order_ok elements_order /\
  loopTail <> nil /\
  (nil ∉ table_blocks tail_preds) /\
  exists body,
    FindBody elements_order 22 (mkLoop loopHeader loopTail) tail_preds
    = Ok body /\
    forall x, x ∈ body <->
      x = loopHeader \/ rtc (body_step tail_preds loopHeader) loopTail x.
Proof.
  assert (range_order_ok elements_order) as Hord by (intros n s; reflexivity).
  assert (nil ∉ table_blocks tail_preds) as Hnil.
  { intros Hin. vm_compute in Hin. discriminate Hin. }
  split; [exact Hord|]. split; [done|]. split; [exact Hnil|].
  apply (FindBody_backward_closure elements_order tail_preds loopHeader
           loopTail Hord); [done|exact Hnil|].
  vm_compute. lia.
Defined.

(** ** The builder *)

(** Appending to an open block. *)
Lemma appendInstruction_open bh b bb v :
  Builder_block b <> nil -> bh !! Builder_block b = Some bb ->
  Term bb = None ->
  appendInstruction bh b v
  = Ok (<[Builder_block b := mkBasicBlock (Instructions bb ++ [v]) None]> bh,
        v).
Proof.
  intros Hn Hb Ht. unfold appendInstruction, Builder_Open, deref.
  rewrite decide_False by done. rewrite Hb. cbn. by rewrite Ht.
Qed.

Lemma appendTerminator_open bh b bb t :
  Builder_block b <> nil -> bh !! Builder_block b = Some bb ->
  Term bb = None ->
  appendTerminator bh b t
  = Ok (<[Builder_block b := mkBasicBlock (Instructions bb) (Some t)]> bh, t).
Proof.
  intros Hn Hb Ht. unfold appendTerminator, Builder_Open, deref.
  rewrite decide_False by done. rewrite Hb. cbn. by rewrite Ht.
Qed.

(** Appending to a closed block. *)
Lemma append_closed bh b bb t :
  bh !! Builder_block b = Some bb -> Term bb = Some t ->
  (forall v, appendInstruction bh b v = Panic) /\
  (forall t2, appendTerminator bh b t2 = Panic).
Proof.
  intros Hb Ht. unfold appendInstruction, appendTerminator, Builder_Open,
    deref.
  destruct (decide (Builder_block b = nil)); [done|].
  rewrite Hb. cbn. by rewrite Ht.
Qed.

Lemma appendTerminator_closes bh b t bh' t' :
  appendTerminator bh b t = Ok (bh', t') ->
  t' = t /\ Builder_block b <> nil /\
  exists bb, bh !! Builder_block b = Some bb /\ Term bb = None /\
             bh' = <[Builder_block b :=
                       mkBasicBlock (Instructions bb) (Some t)]> bh.
Proof.
  unfold appendTerminator, Builder_Open, deref.
  destruct (decide (Builder_block b = nil)); [done|].
  destruct (bh !! Builder_block b) as [bb|] eqn:Hb; [|done]. cbn.
  destruct (Term bb) eqn:Ht; [done|]. cbn. intros [= <- <-].
  split; [done|]. split; [done|]. by exists bb.
Qed.

(** X21. Once a terminator has been appended through a builder, the
    builder is closed: [Open] is false, the block keeps that terminator
    and its instructions, and every further append, of an instruction or
    of a terminator, panics. *)
Theorem Builder_closed_after_terminator (bh bh' : gmap N BasicBlock)
    (b : Builder) (t t' : Terminator) :
  appendTerminator bh b t = Ok (bh', t') ->
  Builder_Open bh' b = Ok false /\
  (exists bb bb', bh !! Builder_block b = Some bb /\
                  bh' !! Builder_block b = Some bb' /\
                  Instructions bb' = Instructions bb /\
                  Term bb' = Some t) /\
  (forall vh cs, Builder_Phi vh bh' b cs = Panic) /\
  (forall vh ref, Builder_Load vh bh' b ref = Panic) /\
  (forall vh val ref, Builder_Store vh bh' b val ref = Panic) /\
  (forall vh callee args, Builder_Call vh bh' b callee args = Panic) /\
  (forall target, Builder_Jump bh' b target = Panic) /\
  (forall cond tt ft, Builder_Branch bh' b cond tt ft = Panic) /\
  (forall inp dt cases, Builder_Switch bh' b inp dt cases = Panic) /\
  (forall ret, Builder_Return bh' b ret = Panic) /\
  (forall resume, Builder_Yield bh' b resume = Panic) /\
  (forall event resume, Builder_Await bh' b event resume = Panic).
Proof.
  intros (-> & Hn & bb & Hb & Ht & ->)%appendTerminator_closes.
  assert ((<[Builder_block b := mkBasicBlock (Instructions bb) (Some t)]> bh)
            !! Builder_block b
          = Some (mkBasicBlock (Instructions bb) (Some t))) as Hb'
    by apply lookup_insert_eq.
  destruct (append_closed _ b _ t Hb' eq_refl) as [Hi Htm].
  split.
  { unfold Builder_Open, deref. rewrite decide_False by done.
    by rewrite Hb'. }
  split; [by do 2 eexists|].
  unfold Builder_Phi, Builder_Load, Builder_Store, Builder_Call,
    Builder_append, Builder_Jump, Builder_Branch, Builder_Switch,
    Builder_Return, Builder_Yield, Builder_Await.
  repeat split; intros; try apply Htm.
  - destruct (Phi vh cs). by rewrite Hi.
  - destruct (Load vh ref). by rewrite Hi.
  - destruct (Store vh val ref). by rewrite Hi.
  - destruct (Call vh callee args). by rewrite Hi.
Qed.

Lemma Builder_closed_after_terminator_witness :
  Builder_Open
    (<[entry := closed (Return lit)]> ∅ : gmap N BasicBlock)
    (NewBuilder entry) = Ok false.
Proof.
  apply (Builder_closed_after_terminator
           (<[entry := mkBasicBlock [] None]> ∅) _
           (NewBuilder entry) (Return lit) (Return lit)).
  vm_compute. reflexivity.
Defined.

(** X22. A builder records what is emitted in order: on a block from
    [NewBlock], a load, a store and a return leave the block with the
    two instructions, the load first, and the return as terminator; the
    two instructions are distinct nodes and no other block is touched. *)
Theorem Builder_records_in_order (vh : gmap N Value)
    (bh : gmap N BasicBlock) (ref val ret : N) :
  let '(bh1, b) := Builder_NewBlock bh in
  exists vh1 bh2 v1 vh2 bh3 v2 bh4,
    Builder_Load vh bh1 b ref = Ok (vh1, bh2, v1) /\
    Builder_Store vh1 bh2 b val ref = Ok (vh2, bh3, v2) /\
    Builder_Return bh3 b ret = Ok (bh4, Return ret) /\
    bh4 !! Builder_Block b
    = Some (mkBasicBlock [v1; v2] (Some (Return ret))) /\
    v1 <> v2 /\
    bh !! Builder_Block b = None /\
    (forall a, a <> Builder_Block b -> bh4 !! a = bh !! a).
Proof.
  unfold Builder_NewBlock, NewBuilder, Builder_Block.
  destruct (alloc_fresh bh) as [Hf Hn]. apply not_elem_of_dom in Hf.
  set (blk := alloc bh) in *.
  unfold Builder_Load, Builder_Store, Builder_Return, Builder_append.
  unfold Load, Store. cbv zeta.
  set (v1 := alloc vh).
  set (vh1 := <[v1 := mkValue OpLoad _ AuxNil]> vh).
  set (v2 := alloc vh1).
  exists vh1. eexists. exists v1. eexists. eexists. exists v2. eexists.
  split.
  { rewrite (appendInstruction_open _ (mkBuilder blk)
               (mkBasicBlock [] None));
      [reflexivity|done|apply lookup_insert_eq|done]. }
  split.
  { cbn [fst snd Builder_block].
    rewrite (appendInstruction_open _ (mkBuilder blk)
               (mkBasicBlock ([] ++ [v1]) None));
      [reflexivity|done|apply lookup_insert_eq|done]. }
  split.
  { cbn [fst snd Builder_block Instructions].
    rewrite (appendTerminator_open _ (mkBuilder blk)
               (mkBasicBlock (([] ++ [v1]) ++ [v2]) None));
      [reflexivity|done|apply lookup_insert_eq|done]. }
  cbn [fst snd Builder_block Instructions].
  split; [apply lookup_insert_eq|]. split.
  { destruct (alloc_fresh vh1) as [Hf2 _]. fold v2 in Hf2.
    intros E. apply Hf2. rewrite <- E. unfold vh1.
    rewrite dom_insert_L. by apply elem_of_union_l, elem_of_singleton. }
  split; [done|].
  intros a Ha. by rewrite !lookup_insert_ne.
Qed.

(** ** Blocks without terminator *)

(** X23. The analyses panic on a start block that has no successors to
    give (a block without terminator, or a pointer to no block):
    [FindPredecessors] at once, [ForwardDataFlow] as soon as the analyzer
    reports a change for the start block. *)
Theorem open_start_panics {A} (impl : BlockAnalyzer A)
    (h : gmap N BasicBlock) (start : N) (k : nat) :
  start <> nil -> successors h start = Panic ->
  FindPredecessors (S k) h start = Panic /\
  (forall a a', AnalyzeBlock a start = (a', true) ->
               ForwardDataFlow (S k) h start a = Panic).
Proof.
  intros Hs Hp.
  assert (blockLIFO_Next (Add (newBlockLIFO 6) start)
          = (start, newBlockLIFO 6)) as HN
    by by apply blockLIFO_Next_Add.
  assert (blockLIFO_Empty (Add (newBlockLIFO 6) start) = false) as HE
    by done.
  split.
  - unfold FindPredecessors. cbn [FindPredecessors_loop].
    rewrite HE, HN, AddSuccessors_successors, Hp. done.
  - intros a a' Ha. unfold ForwardDataFlow. cbn [ForwardDataFlow_loop].
    rewrite HE. unfold ForwardDataFlow_step.
    rewrite HN, Ha, AddSuccessors_successors, Hp. done.
Qed.

Lemma open_start_panics_witness :
  loopHeader <> nil /\ successors open_graph loopHeader = Panic /\
  FindPredecessors 1 open_graph loopHeader = Panic.
Proof.
  split; [done|]. split; [reflexivity|].
  by apply (open_start_panics loggingBlockAnalyzer_AnalyzeBlock
              open_graph loopHeader 0).
Defined.
